(** * PEAS.py: table-driven agents in a stepping environment

    A shallow embedding of [src/PEAS.py]: the percept-history closure
    returned by [TableDrivenAgentProgram], the object heap of [Thing]s and
    [Agent]s, the abstract [Environment] with its overridable hooks, and the
    [TrivialDoctorEnvironment] instance.

    Python objects are mutable and compared by identity, so things, agents
    and program closures live in finite maps from references to their
    current contents; every method is a function on that store. *)

From Stdlib Require Import ZArith QArith.
From stdpp Require Import gmap strings list fin_maps.

Local Open Scope Z_scope.
Local Open Scope string_scope.

(** ** The closure returned by [TableDrivenAgentProgram] *)

Module Program.

(** Identity of one returned [program] function (one closure cell). *)
Definition cref := nat.

Section Closure.
Context {P : Type} `{Countable P}.   (* percepts: hashable Python values *)
Context {A : Type}.                  (* the table's values *)

(** What a [program] closure captures: the [table] argument and the list
    [percepts] created by that call of the factory. *)
Record closure := Closure {
  table : gmap (list P) A;
  percepts : list P
}.

(** [percepts = []; def program ...; return program] : a new cell. *)
Definition TableDrivenAgentProgram (tbl : gmap (list P) A)
    (cs : gmap cref closure) : cref * gmap cref closure :=
  let f := fresh (dom cs) in
  (f, <[f := Closure tbl []]> cs).

(** [tuple(percepts)] as it stands just after [percepts.append(percept)]. *)
Definition lookup_key (c : closure) (percept : P) : list P :=
  percepts c ++ [percept].

(** One call [program(percept)] of the closure [c]: the key handed to
    [table.get], the value returned ([None] is Python's [None]) and the
    closure afterwards. *)
Definition program (c : closure) (percept : P)
    : list P * option A * closure :=
  let key := lookup_key c percept in
  let action := table c !! key in
  (key, action, Closure (table c) key).

(** The same call through the store; [None] when [f] names no closure. *)
Definition call (f : cref) (percept : P) (cs : gmap cref closure)
    : option (list P * option A * gmap cref closure) :=
  match cs !! f with
  | Some c =>
      let '(key, action, c') := program c percept in
      Some (key, action, <[f := c']> cs)
  | None => None
  end.

(** Feeding percepts one at a time to the instance [f], collecting for each
    call the key it looked up and the action it returned. *)
Fixpoint feed (f : cref) (ps : list P) (cs : gmap cref closure)
    : option (list (list P * option A) * gmap cref closure) :=
  match ps with
  | [] => Some ([], cs)
  | p :: ps' =>
      match call f p cs with
      | Some (key, action, cs1) =>
          match feed f ps' cs1 with
          | Some (rest, cs2) => Some ((key, action) :: rest, cs2)
          | None => None
          end
      | None => None
      end
  end.

Definition history (f : cref) (cs : gmap cref closure) : option (list P) :=
  percepts <$> cs !! f.

End Closure.
Global Arguments closure : clear implicits.
Global Arguments closure P {_ _} A.

End Program.

(** ** Python effects: exceptions over a mutable store *)

Module Py.

(** The exceptions the modelled code can raise.  [NoSuchObject] is not a
    Python exception: it is the model's answer when a reference names no
    object of the store, which no Python run can observe. *)
Inductive exn :=
  | TypeError | NotImplementedError | KeyError | ValueError | IndexError
  | EOFError | AttributeError | NoSuchObject.

Inductive res (A : Type) :=
  | Ok (a : A)
  | Raise (e : exn).
Global Arguments Ok {A} a.
Global Arguments Raise {A} e.

(** A computation over a store [S]: it returns or raises, and in both cases
    the mutations made so far stay (Python does not roll back). *)
Definition M (S A : Type) : Type := S -> S * res A.

Definition ret {S A} (a : A) : M S A := fun s => (s, Ok a).
Definition raise {S A} (e : exn) : M S A := fun s => (s, Raise e).
Definition bind {S A B} (m : M S A) (k : A -> M S B) : M S B :=
  fun s =>
    match m s with
    | (s1, Ok a) => k a s1
    | (s1, Raise e) => (s1, Raise e)
    end.
Definition gets {S A} (f : S -> A) : M S A := fun s => (s, Ok (f s)).
Definition modify {S} (f : S -> S) : M S unit := fun s => (f s, Ok tt).
Definition lift_res {S A} (r : res A) : M S A := fun s => (s, r).

(** An attribute read [obj.name]: [AttributeError] when it was never set. *)
Definition attr {S A} (slot : option A) : M S A :=
  match slot with
  | Some v => ret v
  | None => raise AttributeError
  end.

End Py.

Declare Scope py_scope.
Delimit Scope py_scope with py.
Notation "x <- m ;; k" := (Py.bind m (fun x => k))
  (at level 100, m at next level, right associativity) : py_scope.
Notation "m ;; k" := (Py.bind m (fun _ => k))
  (at level 100, right associativity) : py_scope.

(** ** The closure over arbitrary percept values

    [Program] types the percepts by the key type of the table, which is what
    the environments of this file hand to a program.  The function itself
    takes any Python value.  [percepts.append] and [tuple(percepts)] never
    fail, but [table.get] hashes the tuple, and the hash of a tuple raises
    [TypeError] as soon as one of its elements is unhashable (a list, a
    dict, a set, or a tuple that holds one).  A key of the table that is not
    a tuple equals no tuple, so the table is given by its tuple keys. *)

Module Untyped.
Import Py.

Section Closure.
Context {P : Type} `{Countable P}.   (* the hashable Python values *)
Context {U : Type}.                  (* the values whose [hash] raises *)
Context {A : Type}.                  (* the table's values *)

Inductive value :=
  | Hashable (p : P)
  | Unhashable (u : U).

Record closure := Closure {
  table : gmap (list P) A;
  percepts : list value
}.

(** [percepts = []; def program ...; return program]. *)
Definition TableDrivenAgentProgram (tbl : gmap (list P) A) : closure :=
  Closure tbl [].

(** What the dict lookup makes of [tuple(vs)]: the key to compare with the
    table's, or the [TypeError] of [hash]. *)
Fixpoint tuple_key (vs : list value) : res (list P) :=
  match vs with
  | [] => Ok []
  | Hashable p :: vs' =>
      match tuple_key vs' with
      | Ok ps => Ok (p :: ps)
      | Raise e => Raise e
      end
  | Unhashable _ :: _ => Raise TypeError
  end.

(** One call [program(percept)].  The append comes first and is not undone
    when the lookup raises. *)
Definition program (percept : value) : M closure (option A) :=
  (modify (fun c => Closure (table c) (percepts c ++ [percept])) ;;
   vs <- gets percepts ;;
   key <- lift_res (tuple_key vs) ;;
   tbl <- gets table ;;
   ret (tbl !! key))%py.

(** The instance after it has been called on each of [vs] in turn, whether
    these calls returned or raised. *)
Definition called (vs : list value) (c : closure) : closure :=
  foldl (fun c v => (program v c).1) c vs.

End Closure.
Global Arguments value : clear implicits.
Global Arguments closure : clear implicits.
Global Arguments closure P {_ _} U A.

End Untyped.

(** [list.remove(x)]: drops the first element equal to [x]; [None] stands
    for the [ValueError] raised when there is none. *)
Fixpoint list_remove (x : nat) (l : list nat) : option (list nat) :=
  match l with
  | [] => None
  | y :: l' =>
      if decide (x = y) then Some l'
      else match list_remove x l' with
           | Some r => Some (y :: r)
           | None => None
           end
  end.

(** ** Things, agents and the abstract Environment *)

Module Env.
Import Py.
Local Open Scope py_scope.

(** Identity of a [Thing] object; [thing in self.thing] and [list.remove]
    compare by it, since neither class defines [__eq__]. *)
Definition ref := nat.

Inductive klass := KThing | KAgent.

(** The value held in [agent.program]: Python's [None] or a closure made by
    [TableDrivenAgentProgram]. *)
Inductive progval :=
  | PNone
  | PClosure (f : Program.cref).

Section Environment.
Context {P : Type} `{Countable P}.   (* percept values *)
Context {Loc : Type}.                (* non-None location values *)
Context {W : Type}.                  (* world state of the concrete class *)

(** An instance of [Thing] or of its subclass [Agent].  Each attribute is
    [None] until some statement assigns it; a [location] of [Some None] is
    the attribute holding Python's [None]. *)
Record object := Object {
  cls : klass;
  alive : option bool;
  performance : option Z;
  program : option progval;
  location : option (option Loc)
}.

(** [Thing()] sets nothing; [Agent(program)] runs [Agent.__init__]. *)
Definition new_Thing : object := Object KThing None None None None.
Definition new_Agent (program : progval) : object :=
  Object KAgent (Some true) (Some 0) (Some program) None.

(** Ghost record of the calls an environment makes, in order. *)
Inductive event :=
  | EStep (done : bool)
      (* [step()] entered; [done] is what its [is_done()] test returned *)
  | EProgram (agent : ref) (percept : P) (action : option string)
      (* [agent.program(percept)] was called and returned [action] *)
  | EExecute (agent : ref) (action : option string).
      (* [execute_action(agent, action)] was called *)

(** Everything the hooks of a concrete environment may touch. *)
Record store := Store {
  objs : gmap ref object;
  closures : gmap Program.cref (Program.closure P string);
  world : W;
  stdout : list string
}.

(** An [Environment] instance: the two lists of [__init__] over the store,
    and the ghost call record. *)
Record environment := Environment {
  heap : store;
  thing : list ref;
  agents : list ref;
  calls : list event
}.

Definition set_objs (f : gmap ref object -> gmap ref object) (s : store) :=
  Store (f (objs s)) (closures s) (world s) (stdout s).
Definition set_closures cs (s : store) :=
  Store (objs s) cs (world s) (stdout s).
Definition set_world (f : W -> W) (s : store) :=
  Store (objs s) (closures s) (f (world s)) (stdout s).
Definition print_line (line : string) (s : store) :=
  Store (objs s) (closures s) (world s) (stdout s ++ [line]).

Definition set_heap (f : store -> store) (e : environment) :=
  Environment (f (heap e)) (thing e) (agents e) (calls e).
Definition set_thing (l : list ref) (e : environment) :=
  Environment (heap e) l (agents e) (calls e).
Definition set_agents (l : list ref) (e : environment) :=
  Environment (heap e) (thing e) l (calls e).
Definition log (ev : event) : M environment unit :=
  modify (fun e => Environment (heap e) (thing e) (agents e) (calls e ++ [ev])).

(** Running a hook, which sees the store only, inside the environment. *)
Definition lift_store {A} (m : M store A) : M environment A :=
  fun e => let '(s, r) := m (heap e) in (set_heap (fun _ => s) e, r).

Definition print (line : string) : M environment unit :=
  modify (set_heap (print_line line)).

Definition deref (a : ref) : M environment object :=
  fun e =>
    match objs (heap e) !! a with
    | Some o => (e, Ok o)
    | None => (e, Raise NoSuchObject)
    end.

Definition update (a : ref) (f : object -> object) : M environment unit :=
  o <- deref a ;;
  modify (set_heap (set_objs <[a := f o]>)).

(** The methods a concrete environment overrides.  [percept] reads the
    objects and the world; [execute_action] and [default_location] may
    change anything in the store. *)
Record hooks := Hooks {
  percept : gmap ref object -> W -> ref -> res P;
  execute_action : ref -> option string -> M store unit;
  default_location : ref -> M store (option Loc)
}.

(** The base class: [percept] and [execute_action] raise
    [NotImplementedError], [default_location] returns [None]. *)
Definition Environment_base : hooks :=
  Hooks (fun _ _ _ => Raise NotImplementedError)
        (fun _ _ => raise NotImplementedError)
        (fun _ => ret None).

(** [Environment.__init__]: both lists empty. *)
Definition init (s : store) : environment := Environment s [] [] [].

Variable E : hooks.

(** [Thing.is_alive]: [hasattr(self, "alive") and self.alive]. *)
Definition is_alive (o : object) : bool :=
  match alive o with
  | Some b => b
  | None => false
  end.

(** [any(agent.is_alive() for agent in l)], stopping at the first hit. *)
Fixpoint any_alive (l : list ref) : M environment bool :=
  match l with
  | [] => ret false
  | agent :: l' =>
      o <- deref agent ;;
      if is_alive o then ret true else any_alive l'
  end.

Definition is_done : M environment bool :=
  l <- gets agents ;;
  b <- any_alive l ;;
  ret (negb b).

(** [self.percept(agent)] on the current objects and world. *)
Definition perceive (agent : ref) : M environment P :=
  fun e => (e, percept E (objs (heap e)) (world (heap e)) agent).

(** The call [f(p)] of the value [f] held in [agent.program]. *)
Definition call_program (agent : ref) (f : progval) (p : P)
    : M environment (option string) :=
  match f with
  | PNone => raise TypeError   (* 'NoneType' object is not callable *)
  | PClosure c =>
      fun e =>
        match Program.call c p (closures (heap e)) with
        | Some (_, action, cs') =>
            (Environment (set_closures cs' (heap e)) (thing e) (agents e)
               (calls e ++ [EProgram agent p action]), Ok action)
        | None => (e, Raise NoSuchObject)
        end
  end.

(** The first loop of [step], over the agents [l]: the list [actions]. *)
Fixpoint decide_actions (l : list ref) : M environment (list (option string)) :=
  match l with
  | [] => ret []
  | agent :: l' =>
      o <- deref agent ;;
      is_live <- attr (alive o) ;;
      action <- (if is_live : bool then
                   f <- attr (program o) ;;
                   p <- perceive agent ;;
                   call_program agent f p
                 else ret (Some EmptyString)) ;;
      actions <- decide_actions l' ;;
      ret (action :: actions)
  end.

(** The second loop of [step], over [zip(self.agents, actions)]. *)
Fixpoint apply_actions (l : list (ref * option string)) : M environment unit :=
  match l with
  | [] => ret tt
  | (agent, action) :: l' =>
      log (EExecute agent action) ;;
      lift_store (execute_action E agent action) ;;
      apply_actions l'
  end.

Definition step : M environment unit :=
  done <- is_done ;;
  log (EStep done) ;;
  if negb done then
    l <- gets agents ;;
    actions <- decide_actions l ;;
    l2 <- gets agents ;;
    apply_actions (zip l2 actions)
  else ret tt.

(** [for step in range(n): if self.is_done(): return; self.step()]. *)
Fixpoint run_loop (n : nat) : M environment unit :=
  match n with
  | O => ret tt
  | S n' =>
      done <- is_done ;;
      if done : bool then ret tt
      else (step ;; run_loop n')
  end.

(** [run(steps)]: [range(steps)] is empty for [steps <= 0]. *)
Definition run (steps : Z) : M environment unit := run_loop (Z.to_nat steps).
Definition run_default : M environment unit := run 1000.

(** [Agent(thing)] inside [add_thing]: a new object, distinct from all. *)
Definition alloc_Agent (f : progval) : M environment ref :=
  fun e =>
    let a := fresh (dom (objs (heap e))) in
    (set_heap (set_objs <[a := new_Agent f]>) e, Ok a).

(** [add_thing(thing, location)].  The argument is a [Thing] instance
    ([inl]) or any other value ([inr]), which is wrapped in a new Agent. *)
Definition add_thing (arg : ref + progval) (loc : option Loc)
    : M environment unit :=
  t <- match arg with
       | inl r => ret r
       | inr f => alloc_Agent f
       end ;;
  things <- gets thing ;;
  if decide (t ∈ things) then print "Can't add the same thing twice"
  else
    l <- match loc with
         | Some l => ret (Some l)
         | None => lift_store (default_location E t)
         end ;;
    update t (fun o => Object (cls o) (alive o) (performance o) (program o) (Some l)) ;;
    modify (fun e => set_thing (thing e ++ [t]) e) ;;
    o <- deref t ;;
    match cls o with
    | KAgent =>
        update t (fun o => Object (cls o) (alive o) (Some 0) (program o) (location o)) ;;
        modify (fun e => set_agents (agents e ++ [t]) e)
    | KThing => ret tt
    end.

Definition delete_thing_message : string :=
  "list.remove(x): x not in list" ++ " in Environment delete_thing".

(** [delete_thing(thing)]: the [ValueError] of the first [remove] is caught
    and printed; the second [remove] is guarded by the membership test. *)
Definition delete_thing (t : ref) : M environment unit :=
  things <- gets thing ;;
  match list_remove t things with
  | Some l => modify (set_thing l)
  | None => print delete_thing_message
  end ;;
  ags <- gets agents ;;
  if decide (t ∈ ags) then
    match list_remove t ags with
    | Some l => modify (set_agents l)
    | None => raise ValueError
    end
  else ret tt.

End Environment.
Global Arguments object : clear implicits.
Global Arguments event : clear implicits.
Global Arguments store : clear implicits.
Global Arguments store P {_ _} Loc W.
Global Arguments environment : clear implicits.
Global Arguments environment P {_ _} Loc W.
Global Arguments hooks : clear implicits.
Global Arguments hooks P {_ _} Loc W.

End Env.

(** ** TrivialDoctorEnvironment *)

Module Doctor.
Import Py Env.
Local Open Scope py_scope.

Definition Loc : Type := Z * Z.
Definition room_A : Loc := (0, 0).
Definition room_B : Loc := (1, 0).

(** What [float(...)] can return: the exact value of a finite double, an
    infinity or a NaN. *)
Inductive float :=
  | Real (q : Q)
  | PosInf
  | NegInf
  | NaN.

(** [x >= q] on floats, for a threshold [q] that is a double itself. *)
Definition float_ge (x : float) (q : Q) : bool :=
  match x with
  | Real a => Qle_bool q a
  | PosInf => true
  | NegInf => false
  | NaN => false
  end.

(** The threshold literal [98.5], exactly [197/2]. *)
Definition threshold : Q := 197 # 2.

(** The world of the doctor environment: [self.status], and the two outside
    sources the class reads.  [stdin] holds, per line still to be read, what
    [float] makes of it ([None]: [float] raises [ValueError]); [rng n] is
    the [n]-th draw of the random generator and [rng_pos] counts the draws
    made so far. *)
Record hospital := Hospital {
  status : gmap (option Loc) string;
  stdin : list (option float);
  rng : nat -> nat;
  rng_pos : nat
}.

Definition set_status (f : gmap (option Loc) string -> gmap (option Loc) string)
    (w : hospital) : hospital :=
  Hospital (f (status w)) (stdin w) (rng w) (rng_pos w).

(** [random.choice(l)]. *)
Definition random_choice {A} (l : list A) (w : hospital) : hospital * res A :=
  let w' := Hospital (status w) (stdin w) (rng w) (S (rng_pos w)) in
  match l !! (rng w (rng_pos w) `mod` length l)%nat with
  | Some x => (w', Ok x)
  | None => (w, Raise IndexError)
  end.

(** The table of [TableDrivenDoctorAgent]. *)
Definition doctor_table : gmap (list (option Loc * string)) string :=
  list_to_map [
    ([(Some room_A, "healthy")], "Right");
    ([(Some room_A, "unhealthy")], "treat");
    ([(Some room_B, "healthy")], "Left");
    ([(Some room_B, "unhealthy")], "treat");
    ([(Some room_A, "unhealthy"); (Some room_A, "healthy")], "Right");
    ([(Some room_A, "healthy"); (Some room_B, "unhealthy")], "treat");
    ([(Some room_B, "healthy"); (Some room_A, "unhealthy")], "treat");
    ([(Some room_B, "unhealthy"); (Some room_B, "healthy")], "Left");
    ([(Some room_A, "unhealthy"); (Some room_A, "healthy");
      (Some room_B, "unhealthy")], "treat");
    ([(Some room_B, "unhealthy"); (Some room_B, "healthy");
      (Some room_A, "unhealthy")], "treat")
  ].

(** [TableDrivenDoctorAgent()]:
    [Agent(TableDrivenAgentProgram(table))]. *)
Definition TableDrivenDoctorAgent
    : M (store (option Loc * string) Loc hospital) ref :=
  fun s =>
    let '(f, cs) := Program.TableDrivenAgentProgram doctor_table (closures s) in
    let a := fresh (dom (objs s)) in
    (Store (<[a := new_Agent (PClosure f)]> (objs s)) cs (world s) (stdout s),
     Ok a).

Definition load (a : ref)
    : M (store (option Loc * string) Loc hospital) (object Loc) :=
  fun s =>
    match objs s !! a with
    | Some o => (s, Ok o)
    | None => (s, Raise NoSuchObject)
    end.

(** [agent.location = l]. *)
Definition assign_location (agent : ref) (l : Loc)
    : M (store (option Loc * string) Loc hospital) unit :=
  o <- load agent ;;
  modify (set_objs <[agent :=
    Object (cls o) (alive o) (performance o) (program o) (Some (Some l))]>).

(** [agent.performance += d]. *)
Definition add_performance (agent : ref) (d : Z)
    : M (store (option Loc * string) Loc hospital) unit :=
  o <- load agent ;;
  p <- attr (performance o) ;;
  modify (set_objs <[agent :=
    Object (cls o) (alive o) (Some (p + d)) (program o) (location o)]>).

(** [float(input(prompt))]: the prompt is written, a line is consumed. *)
Definition float_input (prompt : string)
    : M (store (option Loc * string) Loc hospital) float :=
  fun s =>
    let s1 := print_line prompt s in
    match stdin (world s1) with
    | [] => (s1, Raise EOFError)
    | line :: rest =>
        let s2 := set_world (fun w => Hospital (status w) rest (rng w) (rng_pos w)) s1 in
        match line with
        | Some x => (s2, Ok x)
        | None => (s2, Raise ValueError)
        end
    end.

(** [TrivialDoctorEnvironment.percept]. *)
Definition percept (os : gmap ref (object Loc)) (w : hospital) (agent : ref)
    : res (option Loc * string) :=
  match os !! agent with
  | None => Raise NoSuchObject
  | Some o =>
      match location o with
      | None => Raise AttributeError
      | Some l =>
          match status w !! l with
          | Some st => Ok (l, st)
          | None => Raise KeyError
          end
      end
  end.

(** [TrivialDoctorEnvironment.execute_action]. *)
Definition execute_action (agent : ref) (action : option string)
    : M (store (option Loc * string) Loc hospital) unit :=
  if decide (action = Some "Right") then
    assign_location agent room_B ;;
    add_performance agent (-1)
  else if decide (action = Some "Left") then
    assign_location agent room_A ;;
    add_performance agent (-1)
  else if decide (action = Some "treat") then
    tem <- float_input "Enter your temperature: " ;;
    (if float_ge tem threshold then
       modify (print_line "medicine prescribed: paracetamol and anti-biotic(low dose)") ;;
       add_performance agent 10
     else ret tt) ;;
    o <- load agent ;;
    l <- attr (location o) ;;
    modify (set_world (set_status <[l := "healthy"]>))
  else ret tt.

(** [TrivialDoctorEnvironment.default_location]. *)
Definition default_location (t : ref)
    : M (store (option Loc * string) Loc hospital) (option Loc) :=
  fun s =>
    let '(w, r) := random_choice [room_A; room_B] (world s) in
    (set_world (fun _ => w) s,
     match r with Ok l => Ok (Some l) | Raise e => Raise e end).

Definition TrivialDoctorEnvironment_hooks : hooks (option Loc * string) Loc hospital :=
  Hooks percept execute_action default_location.

(** [TrivialDoctorEnvironment.__init__]: the base lists, then [self.status]
    from two draws, room A's first. *)
Definition TrivialDoctorEnvironment (s : store (option Loc * string) Loc hospital)
    : environment (option Loc * string) Loc hospital :=
  let e := init s in
  let '(w1, ra) := random_choice ["healthy"; "unhealthy"] (world s) in
  let '(w2, rb) := random_choice ["healthy"; "unhealthy"] w1 in
  match ra, rb with
  | Ok sa, Ok sb =>
      set_heap (set_world (fun _ =>
        Hospital (<[Some room_B := sb]> (<[Some room_A := sa]> ∅))
              (stdin w2) (rng w2) (rng_pos w2))) e
  | _, _ => e
  end.

End Doctor.

(** * Properties *)

Local Open Scope list_scope.

(** ** The percept history of a program instance *)

Section ProgramFacts.
Import Program.
Context {P : Type} `{Countable P} {A : Type}.
Implicit Types (cs : gmap cref (closure P A)) (c : closure P A).
Implicit Types (ps : list P) (tbl : gmap (list P) A).

Lemma call_eq f p cs c :
  cs !! f = Some c ->
  call f p cs =
    Some (percepts c ++ [p], table c !! (percepts c ++ [p]),
          <[f := Closure (table c) (percepts c ++ [p])]> cs).
Proof. intros Hf. unfold call, program, lookup_key. by rewrite Hf. Qed.

(** Feeding [ps] to an instance whose history is [percepts c]: call number
    [k+1] looks up the old history followed by the first [k+1] percepts, the
    history ends as the old one followed by [ps], and no other instance is
    touched. *)
Lemma feed_from ps : forall f cs c,
  cs !! f = Some c ->
  exists out cs',
    feed f ps cs = Some (out, cs')
    /\ length out = length ps
    /\ (forall k, (k < length ps)%nat ->
          out !! k = Some (percepts c ++ take (S k) ps,
                           table c !! (percepts c ++ take (S k) ps)))
    /\ cs' !! f = Some (Closure (table c) (percepts c ++ ps))
    /\ (forall g, g <> f -> cs' !! g = cs !! g).
Proof.
  induction ps as [|p ps IH]; intros f cs c Hf.
  - exists [], cs. simpl. rewrite app_nil_r. repeat split; try done.
    + intros k Hk. lia.
    + rewrite Hf. by destruct c.
  - set (c1 := Closure (table c) (percepts c ++ [p])).
    destruct (IH f (<[f := c1]> cs) c1) as (out & cs' & Hfeed & Hlen & Hk & Hend & Hoth).
    { apply lookup_insert_eq. }
    exists ((percepts c ++ [p], table c !! (percepts c ++ [p])) :: out), cs'.
    simpl. rewrite (call_eq _ _ _ _ Hf). fold c1. rewrite Hfeed.
    repeat split.
    + simpl. by rewrite Hlen.
    + intros [|k] Hlt; simpl.
      * by rewrite take_0.
      * rewrite Hk by lia. simpl. by rewrite <- !app_assoc.
    + rewrite Hend. simpl. by rewrite <- app_assoc.
    + intros g Hg. rewrite Hoth by done. by rewrite lookup_insert_ne.
Qed.

Lemma factory_fresh tbl cs :
  cs !! (TableDrivenAgentProgram tbl cs).1 = None.
Proof. simpl. apply not_elem_of_dom, is_fresh. Qed.

(** C1. A call of the factory returns a new instance with an empty history
    and leaves every existing instance as it was.  When N percepts are then
    fed one at a time to that instance, the k-th call looks up exactly the
    first k percepts in order and returns what the table holds for them; the
    history afterwards is the whole sequence, and the other instances still
    hold what they held. *)
Theorem history_accumulation tbl cs ps :
  let f := (TableDrivenAgentProgram tbl cs).1 in
  let cs0 := (TableDrivenAgentProgram tbl cs).2 in
  cs !! f = None
  /\ history f cs0 = Some []
  /\ (forall g, g <> f -> cs0 !! g = cs !! g)
  /\ exists out cs',
       feed f ps cs0 = Some (out, cs')
       /\ length out = length ps
       /\ (forall k, (1 <= k <= length ps)%nat ->
             out !! (k - 1)%nat = Some (take k ps, tbl !! take k ps))
       /\ history f cs' = Some ps
       /\ (forall g, g <> f -> cs' !! g = cs !! g).
Proof.
  intros f cs0. split; [apply factory_fresh|].
  assert (Hf : cs0 !! f = Some (Closure tbl [])) by apply lookup_insert_eq.
  split; [unfold history; by rewrite Hf|].
  assert (Hcs0 : forall g, g <> f -> cs0 !! g = cs !! g).
  { intros g Hg. subst cs0. simpl. by rewrite lookup_insert_ne. }
  split; [done|].
  destruct (feed_from ps f cs0 _ Hf) as (out & cs' & Hfeed & Hlen & Hk & Hend & Hoth).
  exists out, cs'. repeat split; try done.
  - intros k [Hk1 Hk2]. destruct k as [|k]; [lia|].
    replace (S k - 1)%nat with k by lia. by rewrite Hk by lia.
  - unfold history. by rewrite Hend.
  - intros g Hg. rewrite Hoth by done. by apply Hcs0.
Qed.

(** The history of an instance only grows: a call appends one percept. *)
Lemma program_appends c p :
  percepts (program c p).2 = percepts c ++ [p]
  /\ table (program c p).2 = table c.
Proof. done. Qed.

End ProgramFacts.

(** ** The program on arbitrary percept values *)

Section UntypedFacts.
Import Py Untyped.
Context {P : Type} `{Countable P} {U A : Type}.
Implicit Types (c : closure P U A) (v : value P U) (vs : list (value P U)).
Implicit Types (tbl : gmap (list P) A).

Lemma tuple_key_hashable (ps : list P) :
  tuple_key (U := U) (Hashable <$> ps) = Ok ps.
Proof.
  induction ps as [|p ps IH]; [done|].
  rewrite fmap_cons. cbn [tuple_key]. by rewrite IH.
Qed.

Lemma tuple_key_ok vs ps : tuple_key vs = Ok ps -> vs = Hashable <$> ps.
Proof.
  revert ps. induction vs as [|[p|u] vs IH]; intros ps Hkey; simpl in Hkey.
  - by injection Hkey as <-.
  - destruct (tuple_key vs) as [qs|e]; [|done].
    injection Hkey as <-. simpl. by rewrite (IH qs).
  - done.
Qed.

Lemma tuple_key_unhashable vs u :
  Unhashable u ∈ vs -> tuple_key vs = Raise TypeError.
Proof.
  induction vs as [|[p|u'] vs IH]; intros Hin.
  - by apply elem_of_nil in Hin.
  - apply elem_of_cons in Hin as [Heq|Hin]; [done|].
    simpl. by rewrite (IH Hin).
  - done.
Qed.

(** Every sequence of values is of one kind or the other. *)
Lemma hashable_or_not vs :
  (exists ps, vs = Hashable <$> ps) \/ (exists u, Unhashable u ∈ vs).
Proof.
  induction vs as [|[p|u] vs [[ps ->]|[u' Hin]]].
  - left. by exists [].
  - left. by exists (p :: ps).
  - right. exists u'. apply elem_of_cons. by right.
  - right. exists u. apply elem_of_cons. by left.
  - right. exists u. apply elem_of_cons. by left.
Qed.

Lemma program_eq v c :
  program v c =
    (Closure (table c) (percepts c ++ [v]),
     match tuple_key (percepts c ++ [v]) with
     | Ok key => Ok (table c !! key)
     | Raise e => Raise e
     end).
Proof.
  unfold program, bind, modify, gets, lift_res, ret. simpl.
  by destruct (tuple_key (percepts c ++ [v])).
Qed.

Lemma called_eq vs : forall c,
  called vs c = Closure (table c) (percepts c ++ vs).
Proof.
  induction vs as [|v vs IH]; intros c.
  - simpl. rewrite app_nil_r. by destruct c.
  - unfold called in *. simpl. rewrite IH, program_eq. simpl.
    by rewrite <- app_assoc.
Qed.

(** On the percepts an environment of this file can produce, the call is
    the call of [Program.program]. *)
Lemma program_typed (c : Program.closure P A) (p : P) :
  let lift (c : Program.closure P A) : closure P U A :=
    Closure (Program.table c) (Hashable <$> Program.percepts c) in
  program (Hashable p) (lift c) =
    (lift (Program.program c p).2, Ok (Program.program c p).1.2).
Proof.
  intros lift. rewrite program_eq. unfold lift, Program.program.
  cbn [table percepts Program.table Program.percepts fst snd].
  assert (Heq : (Hashable (U := U) <$> Program.percepts c) ++ [Hashable p]
                = Hashable <$> Program.lookup_key c p)
    by (unfold Program.lookup_key; by rewrite fmap_app).
  by rewrite Heq, tuple_key_hashable.
Qed.

(** C2, amended.  Take any table and an instance that has been called on
    the values [vs], and call it on [v].  When all the values accumulated
    are hashable the call returns, and it returns [table.get] of the
    accumulated sequence: the table's action when that sequence is one of
    its keys, and [None] when no key equals it.  When one of them is
    unhashable the call raises [TypeError].  In both cases [v] has joined
    the history, so after an unhashable percept every later call of the
    instance raises too. *)
Theorem table_exactness_hashable tbl vs v :
  let c := called vs (TableDrivenAgentProgram tbl) in
  percepts c = vs
  /\ table c = tbl
  /\ (forall key, vs ++ [v] = Hashable <$> key ->
        (program v c).2 = Ok (tbl !! key)
        /\ (forall a, tbl !! key = Some a -> (program v c).2 = Ok (Some a))
        /\ ((forall k, k ∈ dom tbl -> k <> key) -> (program v c).2 = Ok None))
  /\ ((exists u, Unhashable u ∈ vs ++ [v]) ->
        (program v c).2 = Raise TypeError)
  /\ ((exists key, vs ++ [v] = Hashable <$> key)
      \/ (exists u, Unhashable u ∈ vs ++ [v]))
  /\ (program v c).1 = called (vs ++ [v]) (TableDrivenAgentProgram tbl)
  /\ (forall v', (exists u, Unhashable u ∈ vs ++ [v]) ->
        (program v' (program v c).1).2 = Raise TypeError).
Proof.
  intros c. subst c. rewrite !called_eq. simpl.
  split; [done|]. split; [done|]. split.
  { intros key Hkey. rewrite program_eq. simpl.
    rewrite Hkey, tuple_key_hashable.
    split; [done|]. split; [by intros a ->|].
    intros Hno. destruct (tbl !! key) as [a|] eqn:Ha; [|done].
    exfalso. apply (Hno key); [|done]. apply elem_of_dom. eauto. }
  split.
  { intros [u Hu]. rewrite program_eq. simpl.
    by rewrite (tuple_key_unhashable _ _ Hu). }
  split; [apply hashable_or_not|].
  split; [by rewrite program_eq|].
  intros v' [u Hu]. rewrite !program_eq. simpl.
  rewrite (tuple_key_unhashable _ u); [done|].
  apply elem_of_app. by left.
Qed.

End UntypedFacts.

(** C2 in the specification's words: a call whose accumulated sequence no
    key of the table equals returns [None]. *)
Definition unmatched_gives_none {P : Type} `{Countable P} {U A : Type}
    (tbl : gmap (list P) A) (vs : list (Untyped.value P U))
    (v : Untyped.value P U) : Prop :=
  (forall key, key ∈ dom tbl -> Untyped.Hashable <$> key <> vs ++ [v]) ->
  (Untyped.program v
     (Untyped.called vs (Untyped.TableDrivenAgentProgram tbl))).2
    = Py.Ok None.

(** C2, as stated, fails.  The doctor's program called on the list
    [[room_A, "unhealthy"]] in place of the tuple: no key of the table
    equals the accumulated sequence, and the call raises [TypeError]
    where the claim has it return [None]. *)
Lemma unhashable_percept_raises :
  ~ unmatched_gives_none (U := list (Doctor.Loc + string))
      Doctor.doctor_table []
      (Untyped.Unhashable [inl Doctor.room_A; inr "unhealthy"]).
Proof.
  intros Hclaim.
  assert (Hret : Py.Raise Py.TypeError = Py.Ok (@None string)).
  { rewrite <- Hclaim; [done|].
    intros [|p key] _; discriminate. }
  discriminate Hret.
Qed.

(** ** Frame rules for the store monad *)

Section Frames.
Import Py.
Context {S : Type} (R : S -> S -> Prop) `{!PreOrder R}.

(** [respects m]: whatever [m] does, it moves the store along [R]. *)
Definition respects {A} (m : M S A) : Prop := forall s, R s (m s).1.

Lemma respects_ret {A} (a : A) : respects (ret a).
Proof. intros s. simpl. reflexivity. Qed.

Lemma respects_raise {A} e : respects (@raise S A e).
Proof. intros s. simpl. reflexivity. Qed.

Lemma respects_gets {A} (f : S -> A) : respects (gets f).
Proof. intros s. simpl. reflexivity. Qed.

Lemma respects_attr {A} (slot : option A) : respects (attr slot).
Proof. destruct slot; [apply respects_ret | apply respects_raise]. Qed.

Lemma respects_modify f : (forall s, R s (f s)) -> respects (modify f).
Proof. intros Hf s. apply Hf. Qed.

Lemma respects_bind {A B} (m : M S A) (k : A -> M S B) :
  respects m -> (forall a, respects (k a)) -> respects (bind m k).
Proof.
  intros Hm Hk s. unfold bind. specialize (Hm s).
  destruct (m s) as [s1 [a|e]]; simpl in *; [|done].
  etrans; [exact Hm | apply Hk].
Qed.

End Frames.

Create HintDb frame discriminated.
#[export] Hint Extern 1 (PreOrder _) => apply _ : frame.

(** One syntax-directed step of a frame proof, and their closure; lemmas
    about the methods themselves come from the [frame] hints. *)
Ltac frame_step :=
  match goal with
  | |- respects ?R (Py.bind _ _) => apply (respects_bind R); [| intros ?]
  | |- respects ?R (Py.ret _) => apply (respects_ret R)
  | |- respects ?R (Py.raise _) => apply (respects_raise R)
  | |- respects ?R (Py.gets _) => apply (respects_gets R)
  | |- respects ?R (Py.attr _) => apply (respects_attr R)
  | |- respects _ (if ?b then _ else _) => destruct b
  | |- respects _ (match ?x with _ => _ end) => destruct x
  end.
Ltac frame := repeat first [frame_step | progress eauto with frame].

(** ** The stepping engine *)

Section EnvFacts.
Import Py Env.
Local Open Scope py_scope.
Context {P : Type} `{Countable P} {Loc W : Type}.
Variable E : hooks P Loc W.
Implicit Types (e : environment P Loc W) (s : store P Loc W).
Implicit Types (a t : ref) (l : list ref) (o : object Loc).

(** *** Methods that leave the environment as it is *)

Lemma deref_respects (R : relation (environment P Loc W)) `{!PreOrder R} a :
  respects R (deref a).
Proof. intros e. unfold deref. destruct (_ !! a); simpl; reflexivity. Qed.

Lemma perceive_respects (R : relation (environment P Loc W)) `{!PreOrder R} a :
  respects R (perceive E a).
Proof. intros e. simpl. reflexivity. Qed.

Hint Resolve deref_respects perceive_respects : frame.

Lemma any_alive_pure l :
  respects (@eq (environment P Loc W)) (any_alive l).
Proof. induction l as [|a l IH]; simpl; frame. Qed.

Hint Resolve any_alive_pure : frame.

Lemma is_done_pure : respects (@eq (environment P Loc W)) is_done.
Proof. unfold is_done. frame. Qed.

Lemma is_done_state e : (is_done e).1 = e.
Proof. symmetry. apply is_done_pure. Qed.

(** *** Methods that leave [self.thing] and [self.agents] as they are *)

Definition same_lists e e' : Prop :=
  thing e' = thing e /\ agents e' = agents e.

#[local] Instance same_lists_preorder : PreOrder same_lists.
Proof.
  split.
  - by intros e.
  - intros e1 e2 e3 [H1 H2] [H3 H4]. split; congruence.
Qed.

Lemma lift_store_lists {A} (m : M (store P Loc W) A) :
  respects same_lists (lift_store m).
Proof. intros e. unfold lift_store. by destruct (m (heap e)). Qed.

Lemma log_lists ev : respects same_lists (log ev).
Proof. by intros e. Qed.

Lemma call_program_lists a f p : respects same_lists (call_program a f p).
Proof.
  destruct f; [apply respects_raise; apply _|]. intros e. simpl.
  by destruct (Program.call _ _ _) as [[[? ?] ?]|].
Qed.

Lemma is_done_lists : respects same_lists is_done.
Proof. intros e. by rewrite is_done_state. Qed.

Hint Resolve lift_store_lists log_lists call_program_lists is_done_lists : frame.

Lemma decide_actions_lists l : respects same_lists (decide_actions E l).
Proof. induction l as [|a l IH]; simpl; frame. Qed.

Lemma apply_actions_lists (l : list (ref * option string)) :
  respects same_lists (apply_actions E l).
Proof. induction l as [|[a act] l IH]; simpl; frame. Qed.

Hint Resolve decide_actions_lists apply_actions_lists : frame.

Lemma step_lists : respects same_lists (step E).
Proof. unfold step. frame. Qed.

Hint Resolve step_lists : frame.

Lemma run_loop_lists n : respects same_lists (run_loop E n).
Proof. induction n as [|n IH]; simpl; frame. Qed.

(** *** [is_done] *)

(** Every reference of [l] names an object of the store. *)
Definition allocated e l : Prop :=
  forall a, a ∈ l -> is_Some (objs (heap e) !! a).

Lemma any_alive_spec l e :
  allocated e l ->
  exists b, any_alive l e = (e, Ok b)
    /\ (b = false <->
         forall a o, a ∈ l -> objs (heap e) !! a = Some o -> is_alive o = false).
Proof.
  induction l as [|a l IH]; intros Hall.
  - exists false. split; [done|]. split; [|done]. intros _ a o Ha. by inversion Ha.
  - destruct (Hall a) as [o Ho]; [by left|].
    destruct IH as (b & Hb & Hiff).
    { intros a' Ha'. apply Hall. by right. }
    simpl. unfold bind, deref. rewrite Ho.
    destruct (is_alive o) eqn:Hlive.
    + exists true. split; [done|]. split; [done|]. intros Hno.
      rewrite <- Hlive. apply (Hno a o); [by left | done].
    + exists b. split; [done|]. rewrite Hiff. split.
      * intros Hl a' o' Ha' Ho'. apply elem_of_cons in Ha' as [->|Ha'].
        -- congruence.
        -- by apply (Hl a' o').
      * intros Hl a' o' Ha' Ho'. apply (Hl a' o'); [by right | done].
Qed.

Lemma is_done_spec e :
  allocated e (agents e) ->
  exists b, is_done e = (e, Ok b)
    /\ (b = true <->
         forall a o, a ∈ agents e -> objs (heap e) !! a = Some o ->
                     is_alive o = false).
Proof.
  intros Hall. destruct (any_alive_spec _ _ Hall) as (b & Hb & Hiff).
  exists (negb b). unfold is_done, bind, gets. rewrite Hb. split; [done|].
  rewrite <- Hiff. by destruct b.
Qed.

(** *** The calls of one tick *)

(** The [is_done()] results seen by the [step()] calls of a call record. *)
Definition step_flags (evs : list (event P)) : list bool :=
  omap (fun ev => match ev with EStep d => Some d | _ => None end) evs.

(** The [execute_action] calls of a call record, in order. *)
Definition executed (evs : list (event P)) : list (ref * option string) :=
  omap (fun ev => match ev with EExecute a act => Some (a, act) | _ => None end) evs.

Definition execute_call (x : ref * option string) : event P :=
  EExecute x.1 x.2.

(** [sees_pre os w ev]: the call [ev] is a live agent's program receiving
    the percept that the objects [os] and the world [w] give that agent. *)
Definition sees_pre (os : gmap ref (object Loc)) (w : W) (ev : event P) : Prop :=
  exists a o p act,
    ev = EProgram a p act /\ os !! a = Some o /\ alive o = Some true
    /\ percept E os w a = Ok p.

(** [phase1 os w l actions evs]: over the objects [os] and the world [w],
    the first loop of [step] on the agents [l] ends with the list [actions]
    having made exactly the program calls [evs]: none for a dead agent,
    whose action is the empty string, and one for a live agent, on its
    percept of [os] and [w]. *)
Inductive phase1 (os : gmap ref (object Loc)) (w : W)
    : list ref -> list (option string) -> list (event P) -> Prop :=
  | phase1_nil : phase1 os w [] [] []
  | phase1_dead a l o acts evs :
      os !! a = Some o -> alive o = Some false ->
      phase1 os w l acts evs ->
      phase1 os w (a :: l) (Some EmptyString :: acts) evs
  | phase1_live a l o p act acts evs :
      os !! a = Some o -> alive o = Some true ->
      percept E os w a = Ok p ->
      phase1 os w l acts evs ->
      phase1 os w (a :: l) (act :: acts) (EProgram a p act :: evs).

Lemma phase1_length os w l acts evs :
  phase1 os w l acts evs -> length acts = length l.
Proof. induction 1; simpl; congruence. Qed.

Lemma phase1_sees_pre os w l acts evs :
  phase1 os w l acts evs -> Forall (sees_pre os w) evs.
Proof.
  induction 1; [constructor | done |].
  constructor; [|done]. by exists a, o, p, act.
Qed.

(** A dead agent is handed the empty string wherever it stands in [l]. *)
Lemma phase1_dead_action os w l acts evs a o act :
  phase1 os w l acts evs ->
  os !! a = Some o -> alive o = Some false ->
  (a, act) ∈ zip l acts -> act = Some EmptyString.
Proof.
  induction 1 as [|a' l o' acts evs Ho' Hal' _ IH
                  |a' l o' p act' acts evs Ho' Hal' _ _ IH];
    intros Ho Hal Hin; simpl in Hin.
  - by inversion Hin.
  - apply elem_of_cons in Hin as [Heq|Hin]; [congruence | by apply IH].
  - apply elem_of_cons in Hin as [Heq|Hin]; [|by apply IH].
    simplify_eq.
Qed.

Lemma phase1_no_step os w l acts evs :
  phase1 os w l acts evs -> step_flags evs = [] /\ executed evs = [].
Proof. induction 1; simpl; done. Qed.

Lemma call_program_inv a f p e :
  let r := call_program a f p e in
  objs (heap r.1) = objs (heap e) /\ world (heap r.1) = world (heap e)
  /\ match r.2 with
     | Ok act => calls r.1 = calls e ++ [EProgram a p act]
     | Raise _ => r.1 = e
     end.
Proof.
  destruct f as [|c]; simpl; [done|].
  by destruct (Program.call c p _) as [[[key act] cs']|].
Qed.

Lemma decide_actions_cons a l e :
  decide_actions E (a :: l) e =
    match objs (heap e) !! a with
    | None => (e, Raise NoSuchObject)
    | Some o =>
        match alive o with
        | None => (e, Raise AttributeError)
        | Some false =>
            match decide_actions E l e with
            | (e', Ok acts) => (e', Ok (Some EmptyString :: acts))
            | (e', Raise x) => (e', Raise x)
            end
        | Some true =>
            match program o with
            | None => (e, Raise AttributeError)
            | Some f =>
                match percept E (objs (heap e)) (world (heap e)) a with
                | Raise x => (e, Raise x)
                | Ok p =>
                    match call_program a f p e with
                    | (e1, Raise x) => (e1, Raise x)
                    | (e1, Ok act) =>
                        match decide_actions E l e1 with
                        | (e', Ok acts) => (e', Ok (act :: acts))
                        | (e', Raise x) => (e', Raise x)
                        end
                    end
                end
            end
        end
    end.
Proof.
  simpl. unfold bind, deref, attr, perceive, ret, raise.
  destruct (objs (heap e) !! a) as [o|]; [|done].
  destruct (alive o) as [[|]|]; [| |done].
  - destruct (program o) as [f|]; [|done].
    destruct (percept E _ _ a) as [p|x]; [|done].
    destruct (call_program a f p e) as [e1 [act|x]]; [|done].
    by destruct (decide_actions E l e1) as [e' [acts|x]].
  - by destruct (decide_actions E l e) as [e' [acts|x]].
Qed.

(** The first loop never touches the objects or the world, so every
    percept it hands out is the one of the state the loop started in. *)
Lemma decide_actions_trace l : forall e,
  exists evs,
    objs (heap (decide_actions E l e).1) = objs (heap e)
    /\ world (heap (decide_actions E l e).1) = world (heap e)
    /\ calls (decide_actions E l e).1 = calls e ++ evs
    /\ Forall (sees_pre (objs (heap e)) (world (heap e))) evs
    /\ (forall acts, (decide_actions E l e).2 = Ok acts ->
          phase1 (objs (heap e)) (world (heap e)) l acts evs).
Proof.
  induction l as [|a l IH]; intros e.
  { exists []. simpl. rewrite app_nil_r. repeat split; try done.
    intros acts [= <-]. constructor. }
  rewrite decide_actions_cons.
  destruct (objs (heap e) !! a) as [o|] eqn:Ho; cycle 1.
  { exists []. simpl. rewrite app_nil_r. by repeat split. }
  destruct (alive o) as [[|]|] eqn:Hal; cycle 2.
  { exists []. simpl. rewrite app_nil_r. by repeat split. }
  - destruct (program o) as [f|]; cycle 1.
    { exists []. simpl. rewrite app_nil_r. by repeat split. }
    destruct (percept E _ _ a) as [p|x] eqn:Hp; cycle 1.
    { exists []. simpl. rewrite app_nil_r. by repeat split. }
    pose proof (call_program_inv a f p e) as (Hos & Hw & Hcall).
    destruct (call_program a f p e) as [e1 [act|x]]; simpl in *; cycle 1.
    { subst e1. exists []. rewrite app_nil_r. by repeat split. }
    destruct (IH e1) as (evs & Hos' & Hw' & Hcalls & Hall & Hok).
    rewrite Hos, Hw in *.
    exists (EProgram a p act :: evs).
    destruct (decide_actions E l e1) as [e' [acts|x]]; simpl in *.
    + rewrite Hcalls, Hcall, <- app_assoc. repeat split; try done.
      * constructor; [|done]. by exists a, o, p, act.
      * intros acts' [= <-]. by eapply phase1_live; eauto.
    + rewrite Hcalls, Hcall, <- app_assoc. repeat split; try done.
      constructor; [|done]. by exists a, o, p, act.
  - destruct (IH e) as (evs & Hos' & Hw' & Hcalls & Hall & Hok).
    exists evs.
    destruct (decide_actions E l e) as [e' [acts|x]]; simpl in *.
    + repeat split; try done.
      intros acts' [= <-]. by eapply phase1_dead; eauto.
    + by repeat split.
Qed.

Lemma apply_actions_cons x (xs : list (ref * option string)) e :
  apply_actions E (x :: xs) e =
    let e0 := Environment (heap e) (thing e) (agents e)
                (calls e ++ [execute_call x]) in
    match execute_action E x.1 x.2 (heap e) with
    | (s, Ok _) => apply_actions E xs (set_heap (fun _ => s) e0)
    | (s, Raise err) => (set_heap (fun _ => s) e0, Raise err)
    end.
Proof.
  destruct x as [a act]. simpl. unfold bind, log, modify, lift_store. simpl.
  by destruct (execute_action E a act (heap e)) as [s [[]|err]].
Qed.

(** The second loop calls [execute_action] on the pairs of its list in
    order, all of them when it returns. *)
Lemma apply_actions_trace (xs : list (ref * option string)) : forall e,
  exists exe,
    exe `prefix_of` xs
    /\ calls (apply_actions E xs e).1 = calls e ++ map execute_call exe
    /\ ((apply_actions E xs e).2 = Ok tt -> exe = xs).
Proof.
  induction xs as [|x xs IH]; intros e.
  { exists []. simpl. rewrite app_nil_r. by repeat split. }
  rewrite apply_actions_cons. simpl.
  destruct (execute_action E x.1 x.2 (heap e)) as [s [[]|err]].
  - match goal with |- context [apply_actions E xs ?e1] =>
      destruct (IH e1) as (exe & Hpre & Hcalls & Hok) end.
    exists (x :: exe). repeat split.
    + by apply prefix_cons.
    + rewrite Hcalls. simpl. by rewrite <- app_assoc.
    + intros Hr. by rewrite (Hok Hr).
  - exists [x]. repeat split; [|done..].
    by apply prefix_cons, prefix_nil.
Qed.

Definition logged e (d : bool) : environment P Loc W :=
  Environment (heap e) (thing e) (agents e) (calls e ++ [EStep d]).

Lemma step_eq e :
  step E e =
    match (is_done e).2 with
    | Raise x => (e, Raise x)
    | Ok true => (logged e true, Ok tt)
    | Ok false =>
        match decide_actions E (agents e) (logged e false) with
        | (e2, Raise x) => (e2, Raise x)
        | (e2, Ok acts) => apply_actions E (zip (agents e) acts) e2
        end
    end.
Proof.
  unfold step. unfold bind at 1.
  pose proof (is_done_state e) as Hst.
  destruct (is_done e) as [e1 [d|x]]; simpl in *; subst e1; [|done].
  unfold bind at 1. simpl. destruct d; simpl; [done|].
  unfold bind at 1. simpl. unfold bind at 1. fold (logged e false).
  pose proof (decide_actions_lists (agents e) (logged e false)) as [_ Hags].
  destruct (decide_actions E (agents e) (logged e false)) as [e2 [acts|x]];
    simpl in *; [|done].
  unfold bind, gets. by rewrite Hags.
Qed.

Lemma is_done_eta e : is_done e = (e, (is_done e).2).
Proof.
  pose proof (is_done_state e) as Hst.
  destruct (is_done e) as [e1 r]. simpl in *. by subst.
Qed.

Lemma step_flags_sees_pre os w evs :
  Forall (sees_pre os w) evs -> step_flags evs = [].
Proof.
  induction 1 as [|ev evs (a & o & p & act & -> & _) _ IH]; [done|].
  simpl. exact IH.
Qed.

Lemma executed_sees_pre os w evs :
  Forall (sees_pre os w) evs -> executed evs = [].
Proof.
  induction 1 as [|ev evs (a & o & p & act & -> & _) _ IH]; [done|].
  simpl. exact IH.
Qed.

Lemma step_flags_execute xs : step_flags (map execute_call xs) = [].
Proof. induction xs as [|x xs IH]; [done|]. simpl. exact IH. Qed.

Lemma executed_execute xs : executed (map execute_call xs) = xs.
Proof.
  induction xs as [|[a act] xs IH]; [done|]. simpl. by rewrite IH.
Qed.

(** What one call of [step] adds to the call record: its entry, then the
    program calls of the first loop, then the [execute_action] calls of the
    second. *)
Lemma step_trace e :
  exists entry decided exe,
    calls (step E e).1 = calls e ++ entry ++ decided ++ map execute_call exe
    /\ (entry = [] \/ exists d, (is_done e).2 = Ok d /\ entry = [EStep d])
    /\ Forall (sees_pre (objs (heap e)) (world (heap e))) decided
    /\ (exe <> [] ->
        exists acts,
          phase1 (objs (heap e)) (world (heap e)) (agents e) acts decided
          /\ exe `prefix_of` zip (agents e) acts)
    /\ ((step E e).2 = Ok tt -> (is_done e).2 = Ok false ->
        exists acts,
          entry = [EStep false]
          /\ phase1 (objs (heap e)) (world (heap e)) (agents e) acts decided
          /\ exe = zip (agents e) acts).
Proof.
  rewrite step_eq.
  destruct (is_done e).2 as [[|]|x] eqn:Hd.
  - exists [EStep true], [], []. simpl. repeat split; try done.
    right. by exists true.
  - destruct (decide_actions_trace (agents e) (logged e false))
      as (evs & _ & _ & Hcalls & Hall & Hok).
    simpl in Hcalls, Hall, Hok.
    destruct (decide_actions E (agents e) (logged e false)) as [e2 [acts|x]];
      simpl in *.
    + destruct (apply_actions_trace (zip (agents e) acts) e2)
        as (exe & Hpre & Hcalls2 & Hok2).
      exists [EStep false], evs, exe. rewrite Hcalls2, Hcalls.
      rewrite <- !app_assoc. repeat split; try done.
      * right. by exists false.
      * intros _. exists acts. split; [by apply Hok | done].
      * intros Hr _. exists acts. repeat split; [by apply Hok | by apply Hok2].
    + exists [EStep false], evs, []. rewrite Hcalls. simpl.
      rewrite app_nil_r, <- app_assoc. repeat split; try done.
      right. by exists false.
  - exists [], [], []. simpl. rewrite app_nil_r. repeat split; try done.
    by left.
Qed.

(** *** The two loops, spelled out *)

(** [decides os w cs l actions evs cs']: over the objects [os] and the world
    [w], and starting from the program closures [cs], the first loop of
    [step] on the agents [l] returns the list [actions], having made exactly
    the program calls [evs] and left the closures as [cs'].  A dead agent
    gets the empty string and no call; a live agent's program closure is
    called on the agent's percept of [os] and [w], and the agent's action is
    what that call returns. *)
Inductive decides (os : gmap ref (object Loc)) (w : W)
    : gmap Program.cref (Program.closure P string) -> list ref ->
      list (option string) -> list (event P) ->
      gmap Program.cref (Program.closure P string) -> Prop :=
  | decides_nil cs : decides os w cs [] [] [] cs
  | decides_dead cs cs' a l o acts evs :
      os !! a = Some o -> alive o = Some false ->
      decides os w cs l acts evs cs' ->
      decides os w cs (a :: l) (Some EmptyString :: acts) evs cs'
  | decides_live cs cs1 cs' a l o c p key act acts evs :
      os !! a = Some o -> alive o = Some true ->
      program o = Some (PClosure c) ->
      percept E os w a = Ok p ->
      Program.call c p cs = Some (key, act, cs1) ->
      decides os w cs1 l acts evs cs' ->
      decides os w cs (a :: l) (act :: acts) (EProgram a p act :: evs) cs'.

(** The second loop as a function of the store: [execute_action] on each
    pair in order, stopping at the first one that raises. *)
Fixpoint execute_all (xs : list (ref * option string)) (s : store P Loc W)
    : store P Loc W * res unit :=
  match xs with
  | [] => (s, Ok tt)
  | x :: xs' =>
      match execute_action E x.1 x.2 s with
      | (s1, Ok _) => execute_all xs' s1
      | (s1, Raise err) => (s1, Raise err)
      end
  end.

Lemma decides_phase1 os w cs l acts evs cs' :
  decides os w cs l acts evs cs' -> phase1 os w l acts evs.
Proof.
  induction 1; [constructor | by eapply phase1_dead | by eapply phase1_live].
Qed.

Lemma call_closure_eq a c p e key act cs1 :
  Program.call c p (closures (heap e)) = Some (key, act, cs1) ->
  call_program a (PClosure c) p e =
    (Environment (set_closures cs1 (heap e)) (thing e) (agents e)
       (calls e ++ [EProgram a p act]), Ok act).
Proof. intros Hcall. simpl. by rewrite Hcall. Qed.

(** What the first loop returns is what [decides] describes. *)
Lemma decide_actions_decides l : forall e e' acts,
  decide_actions E l e = (e', Ok acts) ->
  exists evs,
    e' = Environment (set_closures (closures (heap e')) (heap e))
           (thing e) (agents e) (calls e ++ evs)
    /\ decides (objs (heap e)) (world (heap e)) (closures (heap e))
         l acts evs (closures (heap e')).
Proof.
  induction l as [|a l IH]; intros e e' acts Hrun.
  { injection Hrun as <- <-. exists []. split; [|constructor].
    destruct e as [[os cs w out] th ag cl]. simpl. by rewrite app_nil_r. }
  rewrite decide_actions_cons in Hrun.
  destruct (objs (heap e) !! a) as [o|] eqn:Ho; [|done].
  destruct (alive o) as [[|]|] eqn:Hal; [| |done].
  - destruct (program o) as [f|] eqn:Hf; [|done].
    destruct (percept E _ _ a) as [p|x] eqn:Hp; [|done].
    destruct f as [|c]; [done|].
    destruct (Program.call c p (closures (heap e))) as [[[key act] cs1]|] eqn:Hcall.
    + rewrite (call_closure_eq a c p e key act cs1 Hcall) in Hrun.
      match type of Hrun with context [decide_actions E l ?e1] =>
        destruct (decide_actions E l e1) as [e2 [acts2|x]] eqn:Hrest end;
        [|done].
      injection Hrun as <- <-.
      destruct (IH _ _ _ Hrest) as (evs & -> & Hdec). simpl in *.
      exists (EProgram a p act :: evs). split.
      * by rewrite <- app_assoc.
      * by eapply decides_live.
    + simpl in Hrun. by rewrite Hcall in Hrun.
  - destruct (decide_actions E l e) as [e2 [acts2|x]] eqn:Hrest; [|done].
    injection Hrun as <- <-.
    destruct (IH _ _ _ Hrest) as (evs & Heq & Hdec).
    exists evs. split; [done|]. by eapply decides_dead.
Qed.

(** And whatever [decides] describes is what the first loop returns. *)
Lemma decides_decide_actions os w cs l acts evs cs' :
  decides os w cs l acts evs cs' ->
  forall e,
    objs (heap e) = os -> world (heap e) = w -> closures (heap e) = cs ->
    decide_actions E l e =
      (Environment (set_closures cs' (heap e)) (thing e) (agents e)
         (calls e ++ evs), Ok acts).
Proof.
  induction 1 as [cs|cs cs' a l o acts evs Ho Hal _ IH
                  |cs cs1 cs' a l o c p key act acts evs Ho Hal Hf Hp Hcall _ IH];
    intros e Hos Hw Hcs.
  - destruct e as [[os0 cs0 w0 out] th ag cl]. simpl in *. subst.
    by rewrite app_nil_r.
  - rewrite decide_actions_cons, Hos, Ho, Hal. by rewrite (IH e Hos Hw Hcs).
  - rewrite decide_actions_cons, Hos, Hw, Ho, Hal, Hf, Hp.
    rewrite <- Hcs in Hcall. rewrite (call_closure_eq a c p e key act cs1 Hcall).
    rewrite IH by done. simpl. by rewrite <- app_assoc.
Qed.

(** The second loop changes the store as [execute_all] does and raises when
    it does; when it returns it has recorded every call. *)
Lemma apply_actions_execute_all (xs : list (ref * option string)) : forall e,
  heap (apply_actions E xs e).1 = (execute_all xs (heap e)).1
  /\ (apply_actions E xs e).2 = (execute_all xs (heap e)).2
  /\ thing (apply_actions E xs e).1 = thing e
  /\ agents (apply_actions E xs e).1 = agents e
  /\ ((execute_all xs (heap e)).2 = Ok tt ->
      calls (apply_actions E xs e).1 = calls e ++ map execute_call xs).
Proof.
  induction xs as [|x xs IH]; intros e.
  { simpl. by rewrite app_nil_r. }
  rewrite apply_actions_cons. simpl.
  destruct (execute_action E x.1 x.2 (heap e)) as [s1 [[]|err]]; [|done].
  match goal with |- context [apply_actions E xs ?e1] =>
    destruct (IH e1) as (Hh & Hr & Hth & Hag & Hc) end.
  simpl in *. repeat split; try done.
  intros Hok. rewrite (Hc Hok). by rewrite <- app_assoc.
Qed.

Lemma environment_eta e :
  e = Environment (heap e) (thing e) (agents e) (calls e).
Proof. by destruct e. Qed.

(** C3. In the call record of any [step()], every program call comes before
    every [execute_action] call; each program call is made for an agent that
    is alive and hands it the percept computed from the objects and the world
    as they were when [step] was entered, so no agent sees the effect of an
    action of the same tick; and once an [execute_action] call is made, the
    first loop has produced an action for every agent, calling no program
    for the dead ones, whose action is the empty string.

    A [step()] that is entered on an environment that is not done and
    returns has done exactly this: entered, then run the first loop over
    all of [self.agents] on the objects and world as they were on entry
    (each live agent's program called once on that agent's percept, its
    return value taken as the action; the empty string for each dead agent),
    then called [execute_action] on every agent with its action, in order,
    and the store it leaves is the one these calls produce.  Conversely,
    whenever the first loop can be run in this way and the calls of
    [execute_action] all return, [step()] returns with that call record and
    that store. *)
Theorem two_phase_tick e :
  exists entry decided exe,
    calls (step E e).1 = calls e ++ entry ++ decided ++ map execute_call exe
    /\ Forall (fun ev => exists d, ev = EStep d) entry
    /\ Forall (sees_pre (objs (heap e)) (world (heap e))) decided
    /\ (exe <> [] ->
        exists acts,
          phase1 (objs (heap e)) (world (heap e)) (agents e) acts decided
          /\ length acts = length (agents e)
          /\ exe `prefix_of` zip (agents e) acts)
    /\ ((is_done e).2 = Ok false -> (step E e).2 = Ok tt ->
        exists acts cs1,
          entry = [EStep false]
          /\ decides (objs (heap e)) (world (heap e)) (closures (heap e))
               (agents e) acts decided cs1
          /\ phase1 (objs (heap e)) (world (heap e)) (agents e) acts decided
          /\ length acts = length (agents e)
          /\ exe = zip (agents e) acts
          /\ execute_all (zip (agents e) acts) (set_closures cs1 (heap e))
             = (heap (step E e).1, Ok tt))
    /\ ((is_done e).2 = Ok false ->
        forall acts evs cs1 s',
          decides (objs (heap e)) (world (heap e)) (closures (heap e))
            (agents e) acts evs cs1 ->
          execute_all (zip (agents e) acts) (set_closures cs1 (heap e))
            = (s', Ok tt) ->
          step E e =
            (Environment s' (thing e) (agents e)
               (calls e ++ [EStep false] ++ evs
                  ++ map execute_call (zip (agents e) acts)),
             Ok tt)).
Proof.
  destruct (step_trace e) as (entry & decided & exe & Hc & He & Hd & Hx & Hfull).
  exists entry, decided, exe.
  split; [done|]. split.
  { destruct He as [->|(d & _ & ->)]; [constructor|].
    constructor; [by exists d | constructor]. }
  split; [done|]. split.
  { intros Hne. destruct (Hx Hne) as (acts & Hph & Hpre).
    exists acts. repeat split; try done. by eapply phase1_length. }
  split.
  - intros Hnd Hok. destruct (Hfull Hok Hnd) as (acts & -> & Hph & ->).
    rewrite step_eq, Hnd in Hok, Hc |- *.
    destruct (decide_actions E (agents e) (logged e false))
      as [e2 [acts2|x]] eqn:Hrun; [|done].
    destruct (decide_actions_decides _ _ _ _ Hrun) as (evs & He2 & Hdec).
    simpl in He2, Hdec.
    destruct (apply_actions_execute_all (zip (agents e) acts2) e2)
      as (Hh & Hr & _ & _ & Hcalls).
    rewrite Hok in Hr. specialize (Hcalls (eq_sym Hr)).
    assert (Hlen2 : length acts2 = length (agents e)).
    { eapply phase1_length, decides_phase1, Hdec. }
    assert (Hlen : length acts = length (agents e)) by (by eapply phase1_length).
    assert (Hevs : evs = decided /\ acts2 = acts).
    { rewrite Hcalls, He2 in Hc. simpl in Hc.
      rewrite <- !app_assoc in Hc. apply app_inv_head in Hc.
      simpl in Hc. injection Hc as Hc.
      assert (Hexe : executed (evs ++ map execute_call (zip (agents e) acts2))
                     = executed (decided ++ map execute_call (zip (agents e) acts)))
        by (by rewrite Hc).
      unfold executed in Hexe. rewrite !omap_app in Hexe.
      fold (executed evs) in Hexe. fold (executed decided) in Hexe.
      fold (executed (map execute_call (zip (agents e) acts2))) in Hexe.
      fold (executed (map execute_call (zip (agents e) acts))) in Hexe.
      rewrite !executed_execute in Hexe.
      rewrite (executed_sees_pre _ _ _ Hd) in Hexe.
      rewrite (executed_sees_pre _ _ _
                 (phase1_sees_pre _ _ _ _ _ (decides_phase1 _ _ _ _ _ _ _ Hdec)))
        in Hexe.
      simpl in Hexe.
      assert (Hacts : acts2 = acts).
      { rewrite <- (snd_zip (agents e) acts2) by lia.
        rewrite <- (snd_zip (agents e) acts) by lia. by rewrite Hexe. }
      subst acts2. split; [|done].
      by apply app_inv_tail in Hc. }
    destruct Hevs as [-> ->].
    exists acts, (closures (heap e2)).
    split; [done|]. split; [done|]. split; [done|]. split; [done|].
    split; [done|].
    pose proof (f_equal heap He2) as Hheap. simpl in Hheap.
    rewrite <- Hheap, Hh.
    rewrite (surjective_pairing (execute_all (zip (agents e) acts) (heap e2))).
    by rewrite <- Hr.
  - intros Hnd acts evs cs1 s' Hdec Hexec.
    rewrite step_eq, Hnd.
    rewrite (decides_decide_actions _ _ _ _ _ _ _ Hdec (logged e false))
      by done.
    simpl.
    match goal with |- apply_actions E ?xs ?e1 = _ =>
      destruct (apply_actions_execute_all xs e1) as (Hh & Hr & Hth & Hag & Hcalls);
      rewrite (environment_eta (apply_actions E xs e1).1) at 1 ||
      idtac end.
    simpl in *. rewrite Hexec in *. simpl in *.
    match goal with |- ?lhs = _ =>
      rewrite (surjective_pairing lhs), (environment_eta lhs.1) end.
    rewrite Hh, Hr, Hth, Hag, (Hcalls eq_refl). by rewrite <- !app_assoc.
Qed.

(** *** [run] *)

Lemma run_loop_trace n : forall e,
  exists evs,
    calls (run_loop E n e).1 = calls e ++ evs
    /\ (length (step_flags evs) <= n)%nat
    /\ Forall (eq false) (step_flags evs).
Proof.
  induction n as [|n IH]; intros e.
  { exists []. simpl. rewrite app_nil_r. repeat split; [lia | constructor]. }
  simpl. unfold bind at 1. rewrite is_done_eta.
  destruct (is_done e).2 as [[|]|x] eqn:Hd.
  - exists []. simpl. rewrite app_nil_r. repeat split; [lia | constructor].
  - destruct (step_trace e) as (entry & decided & exe & Hc & He & Hall & _).
    assert (Hflags : step_flags (entry ++ decided ++ map execute_call exe)
                     = step_flags entry).
    { unfold step_flags. rewrite !omap_app. fold (step_flags decided).
      fold (step_flags (map execute_call exe)).
      by rewrite (step_flags_sees_pre _ _ _ Hall), step_flags_execute, app_nil_r. }
    assert (Hentry : (length (step_flags entry) <= 1)%nat
                     /\ Forall (eq false) (step_flags entry)).
    { destruct He as [->|(d & Hd' & ->)]; simpl.
      - split; [lia | constructor].
      - rewrite Hd in Hd'. injection Hd' as <-.
        split; [lia | by repeat constructor]. }
    destruct Hentry as [Hlen Hfalse].
    unfold bind. destruct (step E e) as [e1 [[]|x]]; simpl in *.
    + destruct (IH e1) as (evs & Hc1 & Hlen1 & Hfalse1).
      exists ((entry ++ decided ++ map execute_call exe) ++ evs).
      rewrite Hc1, Hc, <- app_assoc. split; [done|].
      unfold step_flags in *. rewrite omap_app, length_app, Hflags.
      split; [lia|]. by apply Forall_app.
    + exists (entry ++ decided ++ map execute_call exe).
      rewrite Hflags. repeat split; [done | lia | done].
  - exists []. simpl. rewrite app_nil_r. repeat split; [lia | constructor].
Qed.

Lemma run_loop_done n e :
  (is_done e).2 = Ok true -> run_loop E n e = (e, Ok tt).
Proof.
  intros Hd. destruct n as [|n]; [done|].
  simpl. unfold bind. by rewrite is_done_eta, Hd.
Qed.

(** C4. [is_done()] returns true exactly when [is_alive()] is false for
    every agent of [self.agents].  Whatever [steps] is, [run(steps)] returns
    having entered [step()] at most [steps] times, each time in a state where
    [is_done()] had just returned false; and called on a done environment it
    returns at once, changing nothing. *)
Theorem termination e (steps : Z) :
  (allocated e (agents e) ->
     exists b, is_done e = (e, Ok b)
       /\ (b = true <->
            forall a o, a ∈ agents e -> objs (heap e) !! a = Some o ->
                        is_alive o = false))
  /\ (exists evs,
        calls (run E steps e).1 = calls e ++ evs
        /\ (Z.of_nat (length (step_flags evs)) <= Z.max 0 steps)%Z
        /\ Forall (eq false) (step_flags evs))
  /\ ((is_done e).2 = Ok true -> run E steps e = (e, Ok tt)).
Proof.
  split; [apply is_done_spec|]. split; [|apply run_loop_done].
  destruct (run_loop_trace (Z.to_nat steps) e) as (evs & Hc & Hlen & Hf).
  exists evs. repeat split; [done | lia | done].
Qed.

(** *** [add_thing] and [delete_thing] *)

Lemma list_remove_None (x : nat) (xs : list nat) :
  list_remove x xs = None <-> x ∉ xs.
Proof.
  induction xs as [|y xs IH]; simpl.
  - split; [intros _ Hin; by inversion Hin | done].
  - destruct (decide (x = y)) as [->|Hne].
    + split; [done|]. intros Hn. exfalso. apply Hn. by left.
    + destruct (list_remove x xs) as [r|].
      * split; [done|]. intros Hn. exfalso.
        assert (Hx : x ∉ xs) by (intros Hin; apply Hn; by right).
        apply IH in Hx. done.
      * split; [|done]. intros _ Hin.
        apply elem_of_cons in Hin as [?|Hin]; [done|].
        by apply (proj1 IH).
Qed.

(** A successful [remove] cuts out the first occurrence. *)
Lemma list_remove_Some (x : nat) (xs r : list nat) :
  list_remove x xs = Some r ->
  exists l1 l2, xs = l1 ++ x :: l2 /\ r = l1 ++ l2 /\ x ∉ l1.
Proof.
  revert r. induction xs as [|y xs IH]; intros r; simpl; [done|].
  destruct (decide (x = y)) as [->|Hne].
  - intros [= <-]. exists [], xs. repeat split. intros Hin. by inversion Hin.
  - destruct (list_remove x xs) as [r'|]; [|done]. intros [= <-].
    destruct (IH r' eq_refl) as (l1 & l2 & -> & -> & Hx).
    exists (y :: l1), l2. repeat split.
    intros Hin. apply elem_of_cons in Hin as [?|?]; done.
Qed.

Lemma list_remove_NoDup (x : nat) (xs r : list nat) :
  list_remove x xs = Some r -> NoDup xs ->
  NoDup r /\ (x ∉ r) /\ (forall y, (y ∈ r) <-> (y ∈ xs /\ y <> x)).
Proof.
  intros Hr Hnd.
  destruct (list_remove_Some _ _ _ Hr) as (l1 & l2 & -> & -> & Hx).
  apply NoDup_app in Hnd as (Hnd1 & Hdisj & Hnd2).
  apply NoDup_cons in Hnd2 as (Hx2 & Hnd2).
  assert (Hxr : x ∉ l1 ++ l2).
  { intros Hin. apply elem_of_app in Hin as [?|?]; done. }
  split; [|split; [done|]].
  - apply NoDup_app. repeat split; [done| |done].
    intros y Hy Hy2. apply (Hdisj y Hy). by right.
  - intros y. rewrite !elem_of_app, elem_of_cons. split.
    + intros Hy. split; [tauto|]. intros ->. apply Hxr.
      apply elem_of_app. tauto.
    + intros [[?|[?|?]] ?]; tauto.
Qed.

Definition duplicate_message : string := "Can't add the same thing twice".

Lemma add_thing_dup t loc e :
  t ∈ thing e ->
  add_thing E (inl t) loc e = (set_heap (print_line duplicate_message) e, Ok tt).
Proof.
  intros Hin. unfold add_thing. unfold bind at 1. simpl. unfold bind at 1.
  simpl. by rewrite decide_True.
Qed.

(** A first registration that returns: where [t] went and what was set. *)
Lemma add_thing_new t loc e e' :
  t ∉ thing e ->
  add_thing E (inl t) loc e = (e', Ok tt) ->
  exists o',
    objs (heap e') !! t = Some o'
    /\ thing e' = thing e ++ [t]
    /\ (forall pos, loc = Some pos -> location o' = Some (Some pos))
    /\ match cls o' with
       | KAgent => agents e' = agents e ++ [t] /\ performance o' = Some 0%Z
       | KThing => agents e' = agents e
       end.
Proof.
  intros Hnew. unfold add_thing. unfold bind at 1. simpl. unfold bind at 1.
  simpl. rewrite decide_False by done. unfold bind at 1.
  set (m := match loc with Some l => _ | None => _ end).
  destruct (m e) as [e1 [l|x]] eqn:Hm; [|done].
  assert (Hl : thing e1 = thing e /\ agents e1 = agents e
               /\ forall pos, loc = Some pos -> l = Some pos).
  { subst m. destruct loc as [pos|]; simpl in Hm.
    - injection Hm as <- <-. repeat split; try done.
    - unfold lift_store in Hm.
      destruct (default_location E t (heap e)) as [s r].
      injection Hm as <- ->. by repeat split. }
  destruct Hl as (Hth & Hag & Hloc).
  unfold update, bind, deref, modify. simpl.
  destruct (objs (heap e1) !! t) as [o|] eqn:Ho; [|done]. simpl.
  rewrite lookup_insert_eq. simpl.
  destruct (cls o) eqn:Hcls; simpl.
  - intros [= <-]. simpl. rewrite Hth.
    eexists. split; [apply lookup_insert_eq|]. simpl. try rewrite Hcls.
    repeat split; try done.
    intros pos Hpos. by rewrite (Hloc pos Hpos).
  - rewrite lookup_insert_eq. simpl.
    intros [= <-]. simpl. rewrite Hth, Hag.
    eexists. split; [apply lookup_insert_eq|]. simpl. try rewrite Hcls.
    repeat split; try done.
    intros pos Hpos. by rewrite (Hloc pos Hpos).
Qed.

(** With an explicit location, a first registration of an existing object
    returns. *)
Lemma add_thing_returns t pos e o :
  t ∉ thing e -> objs (heap e) !! t = Some o ->
  (add_thing E (inl t) (Some pos) e).2 = Ok tt.
Proof.
  intros Hnew Ho. unfold add_thing. unfold bind at 1. simpl.
  unfold bind at 1. simpl. rewrite decide_False by done.
  unfold update, bind, deref, modify. simpl. rewrite Ho. simpl.
  rewrite lookup_insert_eq. simpl.
  destruct (cls o); simpl; [done|]. by rewrite lookup_insert_eq.
Qed.

(** C7. Adding an instance that is already registered returns normally and
    only prints the report: [self.thing], [self.agents], every object (so
    the location and performance the instance has) and the world stay as
    they are.  An add of an instance not yet registered that returns has
    appended it to [self.thing] with the given location, if one was given;
    and if the instance is an Agent it is also appended to [self.agents]
    with its performance set to 0, whatever it was before.  Such an add does
    return when the instance exists and a location is given. *)
Theorem registration t loc e :
  (t ∈ thing e ->
     exists e', add_thing E (inl t) loc e = (e', Ok tt)
       /\ thing e' = thing e /\ agents e' = agents e
       /\ objs (heap e') = objs (heap e) /\ world (heap e') = world (heap e)
       /\ stdout (heap e') = stdout (heap e) ++ [duplicate_message])
  /\ (t ∉ thing e ->
      forall e', add_thing E (inl t) loc e = (e', Ok tt) ->
        exists o',
          objs (heap e') !! t = Some o'
          /\ thing e' = thing e ++ [t]
          /\ (forall pos, loc = Some pos -> location o' = Some (Some pos))
          /\ (cls o' = KAgent ->
                agents e' = agents e ++ [t] /\ performance o' = Some 0%Z))
  /\ (t ∉ thing e -> is_Some (objs (heap e) !! t) -> is_Some loc ->
      (add_thing E (inl t) loc e).2 = Ok tt).
Proof.
  split; [|split].
  - intros Hin. eexists. split; [by apply add_thing_dup|]. by repeat split.
  - intros Hnew e' Hadd.
    destruct (add_thing_new t loc e e' Hnew Hadd) as (o' & Ho' & Hth & Hloc & Hcls).
    exists o'. split; [done|]. split; [done|]. split; [done|].
    intros Hk. by rewrite Hk in Hcls.
  - intros Hnew [o Ho] [pos ->]. by apply add_thing_returns with o.
Qed.

(** Whatever its argument and however it ends, [add_thing] leaves the two
    lists alone or appends one new reference to [self.thing] and possibly to
    [self.agents]. *)
Lemma add_thing_lists arg loc e :
  let e' := (add_thing E arg loc e).1 in
  (thing e' = thing e /\ agents e' = agents e)
  \/ (exists t, (t ∉ thing e) /\ thing e' = thing e ++ [t]
        /\ (agents e' = agents e \/ agents e' = agents e ++ [t])).
Proof.
  simpl. destruct (add_thing E arg loc e) as [e' r] eqn:Hadd. simpl.
  unfold add_thing in Hadd. unfold bind at 1 in Hadd.
  set (m0 := match arg with inl r => _ | inr f => _ end) in Hadd.
  destruct (m0 e) as [e0 r0] eqn:H0.
  assert (Hl0 : thing e0 = thing e /\ agents e0 = agents e).
  { subst m0. destruct arg as [a|f]; simpl in H0; by injection H0 as <- <-. }
  destruct Hl0 as [Hth0 Hag0].
  destruct r0 as [t|x]; [|injection Hadd as <- <-; by left].
  unfold bind at 1 in Hadd. simpl in Hadd.
  destruct (decide (t ∈ thing e0)) as [Hin|Hnew].
  { injection Hadd as <- <-. by left. }
  unfold bind at 1 in Hadd.
  set (m := match loc with Some pos => _ | None => _ end) in Hadd.
  destruct (m e0) as [e1 r1] eqn:Hm.
  assert (Hl1 : thing e1 = thing e /\ agents e1 = agents e).
  { subst m. destruct loc; simpl in Hm.
    - by injection Hm as <- <-.
    - unfold lift_store in Hm.
      destruct (default_location E t (heap e0)) as [s r'].
      by injection Hm as <- <-. }
  destruct Hl1 as [Hth1 Hag1]. rewrite Hth0 in Hnew.
  destruct r1 as [pos|x]; [|injection Hadd as <- <-; by left].
  unfold update, bind, deref, modify in Hadd. simpl in Hadd.
  destruct (objs (heap e1) !! t) as [o|]; simpl in Hadd;
    [|injection Hadd as <- <-; by left].
  rewrite lookup_insert_eq in Hadd. simpl in Hadd.
  destruct (cls o); simpl in Hadd.
  - injection Hadd as <- <-. simpl.
    right. exists t. rewrite Hth1, Hag1. split; [done|]. split; [done|]. by left.
  - rewrite lookup_insert_eq in Hadd. simpl in Hadd. injection Hadd as <- <-.
    simpl. right. exists t. rewrite Hth1, Hag1.
    split; [done|]. split; [done|]. by right.
Qed.

Lemma delete_thing_eq t e :
  delete_thing t e =
    let e1 := match list_remove t (thing e) with
              | Some things => set_thing things e
              | None => set_heap (print_line delete_thing_message) e
              end in
    (match list_remove t (agents e) with
     | Some ags => set_agents ags e1
     | None => e1
     end, Ok tt).
Proof.
  unfold delete_thing. unfold bind at 1. simpl.
  assert (Hags : forall e1 : environment P Loc W,
            agents e1 = agents e ->
            (ags <- gets agents;;
             if decide (t ∈ ags)
             then match list_remove t ags with
                  | Some ags' => modify (set_agents ags')
                  | None => raise ValueError
                  end
             else ret tt)%py e1
            = (match list_remove t (agents e) with
               | Some ags => set_agents ags e1
               | None => e1
               end, Ok tt)).
  { intros e1 He1. unfold bind, gets. simpl. rewrite He1.
    destruct (decide (t ∈ agents e)) as [Hin|Hout].
    - destruct (list_remove t (agents e)) as [ags|] eqn:Hr; [done|].
      by apply list_remove_None in Hr.
    - apply list_remove_None in Hout. by rewrite Hout. }
  unfold bind at 1.
  destruct (list_remove t (thing e)) as [things|]; simpl; by rewrite Hags.
Qed.

(** *** The registration invariant *)

(** What can be done to an environment from the outside: build it, call
    its methods, and change objects or the world behind its back. *)
Inductive reachable : environment P Loc W -> Prop :=
  | reach_init s : reachable (init s)
  | reach_heap e f : reachable e -> reachable (set_heap f e)
  | reach_add e arg loc : reachable e -> reachable (add_thing E arg loc e).1
  | reach_delete e t : reachable e -> reachable (delete_thing t e).1
  | reach_step e : reachable e -> reachable (step E e).1
  | reach_run e steps : reachable e -> reachable (run E steps e).1.

(** No instance is listed twice, and every agent is a thing. *)
Definition registered_ok e : Prop :=
  NoDup (thing e) /\ NoDup (agents e) /\ agents e ⊆ thing e.

Lemma same_lists_ok e e' : same_lists e e' -> registered_ok e -> registered_ok e'.
Proof. intros [Hth Hag]. unfold registered_ok. by rewrite Hth, Hag. Qed.

Lemma add_thing_ok arg loc e :
  registered_ok e -> registered_ok (add_thing E arg loc e).1.
Proof.
  intros (Hnd1 & Hnd2 & Hsub).
  destruct (add_thing_lists arg loc e) as [[Hth Hag]|(t & Hnew & Hth & Hag)];
    unfold registered_ok; rewrite Hth.
  - by rewrite Hag.
  - assert (Hnd : NoDup (thing e ++ [t])).
    { apply NoDup_app. repeat split; [done| |apply NoDup_singleton].
      intros y Hy Hy'. apply list_elem_of_singleton in Hy'. by subst. }
    destruct Hag as [Hag|Hag]; rewrite Hag.
    + repeat split; [done..|].
      intros y Hy. apply elem_of_app. left. by apply Hsub.
    + repeat split; [done| |].
      * apply NoDup_app. repeat split; [done| |apply NoDup_singleton].
        intros y Hy Hy'. apply list_elem_of_singleton in Hy'. subst.
        by apply Hnew, Hsub.
      * intros y Hy. apply elem_of_app in Hy as [Hy|Hy];
          apply elem_of_app; [left; by apply Hsub | by right].
Qed.

Lemma delete_thing_ok t e :
  registered_ok e -> registered_ok (delete_thing t e).1.
Proof.
  intros (Hnd1 & Hnd2 & Hsub). rewrite delete_thing_eq. simpl.
  destruct (list_remove t (thing e)) as [things|] eqn:Hth.
  - destruct (list_remove_NoDup _ _ _ Hth Hnd1) as (Hn1 & Hx1 & Hin1).
    destruct (list_remove t (agents e)) as [ags|] eqn:Hag; simpl.
    + destruct (list_remove_NoDup _ _ _ Hag Hnd2) as (Hn2 & Hx2 & Hin2).
      repeat split; [done..|]. intros y Hy. apply Hin2 in Hy as [Hy Hne].
      apply Hin1. split; [by apply Hsub | done].
    + apply list_remove_None in Hag.
      repeat split; [done..|]. intros y Hy. apply Hin1.
      split; [by apply Hsub|]. by intros ->.
  - apply list_remove_None in Hth.
    assert (Hag : list_remove t (agents e) = None).
    { apply list_remove_None. intros Hin. by apply Hth, Hsub. }
    by rewrite Hag.
Qed.

Lemma reachable_ok e : reachable e -> registered_ok e.
Proof.
  induction 1 as [s|e f _ IH|e arg loc _ IH|e t _ IH|e _ IH|e steps _ IH].
  - repeat split; [constructor..|done].
  - done.
  - by apply add_thing_ok.
  - by apply delete_thing_ok.
  - apply (same_lists_ok e); [apply step_lists | done].
  - apply (same_lists_ok e); [apply run_loop_lists | done].
Qed.

(** C8. In an environment that has just been constructed, and after any
    sequence of [add_thing], [delete_thing], [step] and [run] calls (and of
    changes made to the objects in between), every member of [self.agents]
    is a member of [self.thing]. *)
Theorem agents_subset_things e : reachable e -> agents e ⊆ thing e.
Proof. intros Hr. by destruct (reachable_ok e Hr) as (_ & _ & Hsub). Qed.

(** C9. [delete_thing] never raises.  Called on a member of [self.thing] it
    removes its first occurrence and reports nothing, and in an environment
    built through the methods the instance is then in neither list while
    all other members stay.  Called on a non-member it leaves [self.thing]
    as it is and prints the report, keeping the objects and the world.  In
    both cases the first occurrence in [self.agents] is removed when there is
    one, and [self.agents] is left as it is when there is none. *)
Theorem delete_thing_spec t e :
  let e' := (delete_thing t e).1 in
  (delete_thing t e).2 = Ok tt
  /\ (t ∈ thing e ->
      list_remove t (thing e) = Some (thing e') /\ heap e' = heap e)
  /\ (reachable e -> t ∈ thing e ->
      (t ∉ thing e') /\ (t ∉ agents e')
      /\ (forall y, y <> t ->
            ((y ∈ thing e') <-> (y ∈ thing e))
            /\ ((y ∈ agents e') <-> (y ∈ agents e))))
  /\ (t ∉ thing e ->
      thing e' = thing e
      /\ stdout (heap e') = stdout (heap e) ++ [delete_thing_message]
      /\ objs (heap e') = objs (heap e) /\ world (heap e') = world (heap e))
  /\ (t ∈ agents e -> list_remove t (agents e) = Some (agents e'))
  /\ (t ∉ agents e -> agents e' = agents e).
Proof.
  simpl. rewrite delete_thing_eq. simpl.
  split; [done|]. split; [|split; [|split; [|split]]].
  - intros Hin. destruct (list_remove t (thing e)) as [things|] eqn:Hth.
    + by destruct (list_remove t (agents e)).
    + by apply list_remove_None in Hth.
  - intros Hr Hin. destruct (reachable_ok e Hr) as (Hnd1 & Hnd2 & Hsub).
    destruct (list_remove t (thing e)) as [things|] eqn:Hth;
      [|by apply list_remove_None in Hth].
    destruct (list_remove_NoDup _ _ _ Hth Hnd1) as (Hn1 & Hx1 & Hin1).
    destruct (list_remove t (agents e)) as [ags|] eqn:Hag; simpl.
    + destruct (list_remove_NoDup _ _ _ Hag Hnd2) as (Hn2 & Hx2 & Hin2).
      repeat split; try done; rewrite ?Hin1, ?Hin2; tauto.
    + apply list_remove_None in Hag.
      repeat split; try done; rewrite ?Hin1; tauto.
  - intros Hout. apply list_remove_None in Hout. rewrite Hout.
    by destruct (list_remove t (agents e)).
  - intros Hin. destruct (list_remove t (agents e)) as [ags|] eqn:Hag.
    + by destruct (list_remove t (thing e)).
    + by apply list_remove_None in Hag.
  - intros Hout. apply list_remove_None in Hout. rewrite Hout.
    by destruct (list_remove t (thing e)).
Qed.

(** *** Every agent is acted for *)

Lemma phase1_dead_in os w l acts evs a o :
  phase1 os w l acts evs ->
  a ∈ l -> os !! a = Some o -> alive o = Some false ->
  (a, Some EmptyString) ∈ zip l acts.
Proof.
  induction 1 as [|a' l o' acts evs Ho' Hal' _ IH
                  |a' l o' p act' acts evs Ho' Hal' _ _ IH];
    intros Hin Ho Hal.
  - by inversion Hin.
  - simpl. apply elem_of_cons in Hin as [->|Hin]; [by left|].
    right. by apply IH.
  - simpl. apply elem_of_cons in Hin as [->|Hin]; [congruence|].
    right. by apply IH.
Qed.

(** The doctor environment does nothing on the empty-string action. *)
Lemma doctor_ignores_placeholder a
    (ds : store (option Doctor.Loc * string) Doctor.Loc Doctor.hospital) :
  Doctor.execute_action a (Some EmptyString) ds = (ds, Ok tt).
Proof.
  unfold Doctor.execute_action.
  by repeat (rewrite decide_False by discriminate).
Qed.

Lemma executed_step_trace entry decided exe os w :
  (entry = [] \/ exists d, entry = [EStep d]) ->
  Forall (sees_pre os w) decided ->
  executed (entry ++ decided ++ map execute_call exe) = exe.
Proof.
  intros Hentry Hall. unfold executed. rewrite !omap_app.
  fold (executed decided). fold (executed (map execute_call exe)).
  rewrite (executed_sees_pre _ _ _ Hall), executed_execute.
  by destruct Hentry as [->|[d ->]].
Qed.

(** C10, amended.  When [step()] is entered on an environment that is not
    done, the agents handed to [execute_action] during that call are those
    of [self.agents] in order: a first part of them if the call raises, all
    of them if it returns (so each one exactly once when no agent is listed
    twice, as in any environment built through the methods).  An agent that
    was dead on entry is handed the empty string and nothing else.  The
    doctor environment's [execute_action] returns on the empty string
    without changing anything in the store. *)
Theorem execute_once_per_agent e :
  (is_done e).2 = Ok false ->
  exists evs,
    calls (step E e).1 = calls e ++ evs
    /\ (executed evs).*1 `prefix_of` agents e
    /\ ((step E e).2 = Ok tt -> (executed evs).*1 = agents e)
    /\ (reachable e -> NoDup (executed evs).*1)
    /\ (forall a o, a ∈ agents e -> objs (heap e) !! a = Some o ->
                    alive o = Some false ->
          (forall act, (a, act) ∈ executed evs -> act = Some EmptyString)
          /\ ((step E e).2 = Ok tt -> (a, Some EmptyString) ∈ executed evs))
    /\ (forall a (ds : store (option Doctor.Loc * string) Doctor.Loc
                             Doctor.hospital),
          Doctor.execute_action a (Some EmptyString) ds = (ds, Ok tt)).
Proof.
  intros Hnd.
  destruct (step_trace e)
    as (entry & decided & exe & Hc & Hentry & Hall & Hpart & Hfull).
  exists (entry ++ decided ++ map execute_call exe).
  assert (Hexe : executed (entry ++ decided ++ map execute_call exe) = exe).
  { eapply executed_step_trace; [|done].
    destruct Hentry as [->|(d & _ & ->)]; [by left | right; by exists d]. }
  rewrite Hexe.
  assert (Hpre : exe.*1 `prefix_of` agents e).
  { destruct exe as [|x exe]; [apply prefix_nil|].
    destruct Hpart as (acts & Hph & [k Hk]); [done|].
    exists (k.*1).
    rewrite <- (fst_zip (agents e) acts)
      by (by rewrite (phase1_length _ _ _ _ _ Hph)).
    by rewrite Hk, fmap_app. }
  split; [done|]. split; [done|]. split.
  { intros Hok. destruct (Hfull Hok Hnd) as (acts & _ & Hph & ->).
    apply fst_zip. by rewrite (phase1_length _ _ _ _ _ Hph). }
  split.
  { intros Hr. destruct (reachable_ok e Hr) as (_ & Hnodup & _).
    destruct Hpre as [k Hk]. rewrite Hk in Hnodup.
    by apply NoDup_app in Hnodup as (? & _). }
  split; [|apply doctor_ignores_placeholder].
  intros a o Hin Ho Hal. split.
  - intros act Hact.
    destruct Hpart as (acts & Hph & Hk).
    { intros ->. by inversion Hact. }
    eapply phase1_dead_action; [exact Hph | exact Ho | exact Hal |].
    destruct Hk as [k ->]. apply elem_of_app. by left.
  - intros Hok. destruct (Hfull Hok Hnd) as (acts & _ & Hph & ->).
    by eapply phase1_dead_in.
Qed.

(** *** An agent without a program *)

(** [step] on an environment whose first agent is alive, holds [None] as
    its program and can be given a percept: the call of [None] raises and no
    action is executed. *)
Lemma step_none_program a l e o p :
  agents e = a :: l -> objs (heap e) !! a = Some o ->
  alive o = Some true -> program o = Some PNone ->
  percept E (objs (heap e)) (world (heap e)) a = Ok p ->
  step E e = (logged e false, Raise TypeError).
Proof.
  intros Hags Ho Hal Hprog Hp.
  assert (Hd : (is_done e).2 = Ok false).
  { unfold is_done, bind, gets. rewrite Hags. simpl.
    unfold bind, deref, is_alive. by rewrite Ho, Hal. }
  rewrite step_eq, Hd, Hags, decide_actions_cons. simpl.
  by rewrite Ho, Hal, Hprog, Hp.
Qed.

End EnvFacts.

(** ** The doctor environment *)

Module DoctorFacts.
Import Py Env.
Local Open Scope py_scope.

Abbreviation dstore := (store (option Doctor.Loc * string) Doctor.Loc Doctor.hospital).
Abbreviation denv := (environment (option Doctor.Loc * string) Doctor.Loc Doctor.hospital).
Abbreviation doctor := Doctor.TrivialDoctorEnvironment_hooks.

(** *** Concrete runs *)

(** A ward with room A unhealthy and room B healthy, and the lines still to
    be typed at the prompt. *)
Definition ward (lines : list (option Doctor.float)) : Doctor.hospital :=
  Doctor.Hospital
    (<[Some Doctor.room_B := "healthy"]> (<[Some Doctor.room_A := "unhealthy"]> ∅))
    lines (fun n => n) 0.

(** [agent = TableDrivenDoctorAgent(); environment.add_thing(agent, room_A)]
    in that ward. *)
Definition doctor_in_A (lines : list (option Doctor.float)) : denv :=
  let s := (Doctor.TableDrivenDoctorAgent (Store ∅ ∅ (ward lines) [])).1 in
  (add_thing doctor (inl 0%nat) (Some Doctor.room_A) (init s)).1.

(** The reference scenario: the doctor treats room A on a temperature of
    100 and scores 10, then moves right at a cost of 1. *)
Example reference_scenario :
  let e := (run doctor 2 (doctor_in_A [Some (Doctor.Real 100)])).1 in
  executed (calls e) = [(0%nat, Some "treat"); (0%nat, Some "Right")]
  /\ Doctor.status (world (heap e)) !! Some Doctor.room_A = Some "healthy"
  /\ (performance <$> objs (heap e) !! 0%nat) = Some (Some 9)
  /\ (location <$> objs (heap e) !! 0%nat) = Some (Some (Some Doctor.room_B)).
Proof. vm_compute. by repeat split. Qed.

(** Two doctors in the unhealthy room A: the second is still told that the
    room is unhealthy although the first one's treatment is applied before
    the second one's. *)
Definition two_doctors_in_A : denv :=
  let s0 := Store ∅ ∅ (ward [Some (Doctor.Real 99); Some (Doctor.Real 97)]) [] in
  let s1 := (Doctor.TableDrivenDoctorAgent s0).1 in
  let s2 := (Doctor.TableDrivenDoctorAgent s1).1 in
  let e1 := (add_thing doctor (inl 0%nat) (Some Doctor.room_A) (init s2)).1 in
  (add_thing doctor (inl 1%nat) (Some Doctor.room_A) e1).1.

Example both_doctors_see_unhealthy :
  calls (step doctor two_doctors_in_A).1 =
    [EStep false;
     EProgram 0%nat (Some Doctor.room_A, "unhealthy") (Some "treat");
     EProgram 1%nat (Some Doctor.room_A, "unhealthy") (Some "treat");
     EExecute 0%nat (Some "treat");
     EExecute 1%nat (Some "treat")].
Proof. vm_compute. reflexivity. Qed.

(** *** [treat] *)

Lemma float_ge_real q :
  Doctor.float_ge (Doctor.Real q) Doctor.threshold = true
  <-> (Doctor.threshold <= q)%Q.
Proof. simpl. apply Qle_bool_iff. Qed.

(** A measurement exceeds the threshold: it is strictly above it. *)
Definition exceeds_threshold (tem : Doctor.float) : Prop :=
  match tem with
  | Doctor.Real q => (Doctor.threshold < q)%Q
  | Doctor.PosInf => True
  | Doctor.NegInf | Doctor.NaN => False
  end.

(** The reward of [treat] as the specification words it: the agent gains 10
    exactly when the measurement read exceeds the threshold. *)
Definition rewarded_iff_exceeding (s : dstore) (agent : ref) : Prop :=
  forall o perf tem rest,
    objs s !! agent = Some o -> performance o = Some perf ->
    Doctor.stdin (world s) = Some tem :: rest ->
    (performance <$>
       objs (Doctor.execute_action agent (Some "treat") s).1 !! agent)
      = Some (Some (perf + 10))
    <-> exceeds_threshold tem.

(** The healing of [treat] read the same way: a status that was not
    ["healthy"] becomes ["healthy"] only when the measurement read exceeds
    the threshold. *)
Definition healed_only_if_exceeding (s : dstore) (agent : ref) : Prop :=
  forall o pos tem rest,
    objs s !! agent = Some o -> location o = Some pos ->
    Doctor.stdin (world s) = Some tem :: rest ->
    Doctor.status (world s) !! pos <> Some "healthy" ->
    Doctor.status (world (Doctor.execute_action agent (Some "treat") s).1) !! pos
      = Some "healthy" ->
    exceeds_threshold tem.

(** C6, as stated, fails.  A measurement of exactly 98.5 does not exceed the
    threshold, and the agent is rewarded all the same; a measurement of 97
    is below the threshold, and the room becomes healthy all the same. *)
Lemma treat_at_threshold_rewarded :
  ~ rewarded_iff_exceeding
      (heap (doctor_in_A [Some (Doctor.Real (197 # 2))])) 0%nat
  /\ ~ healed_only_if_exceeding
        (heap (doctor_in_A [Some (Doctor.Real 97)])) 0%nat.
Proof.
  split.
  - intros Hclaim.
    destruct (Hclaim (Object KAgent (Some true) (Some 0) (Some (PClosure 0%nat))
                        (Some (Some Doctor.room_A)))
                     0 (Doctor.Real (197 # 2)) []) as [Hexceeds _];
      [vm_compute; reflexivity..|].
    apply (Qlt_irrefl Doctor.threshold). apply Hexceeds.
    vm_compute. reflexivity.
  - intros Hclaim.
    assert (Hexceeds : exceeds_threshold (Doctor.Real 97)).
    { apply (Hclaim (Object KAgent (Some true) (Some 0) (Some (PClosure 0%nat))
                       (Some (Some Doctor.room_A)))
                    (Some Doctor.room_A) (Doctor.Real 97) []);
        vm_compute; (reflexivity || discriminate). }
    vm_compute in Hexceeds. discriminate Hexceeds.
Qed.

(** C6, amended. Executing ["treat"] for an agent that has a location and a
    performance, when the line read is a number, returns; it sets the status
    of the agent's location to ["healthy"] whatever the number is, leaves
    the agent where it is, and adds exactly 10 to its performance when the
    number is at least 98.5 and nothing otherwise. *)
Theorem treat_effect (agent : ref) (s : dstore) o pos perf tem rest :
  objs s !! agent = Some o -> location o = Some pos ->
  performance o = Some perf -> Doctor.stdin (world s) = Some tem :: rest ->
  exists s' o',
    Doctor.execute_action agent (Some "treat") s = (s', Ok tt)
    /\ Doctor.status (world s') = <[pos := "healthy"]> (Doctor.status (world s))
    /\ objs s' !! agent = Some o'
    /\ location o' = Some pos
    /\ performance o' =
         Some (if Doctor.float_ge tem Doctor.threshold then perf + 10 else perf)
    /\ (forall q, tem = Doctor.Real q ->
          (Doctor.float_ge tem Doctor.threshold = true
           <-> (Doctor.threshold <= q)%Q)).
Proof.
  intros Ho Hloc Hperf Hin. unfold Doctor.execute_action.
  rewrite !decide_False by discriminate. rewrite decide_True by done.
  unfold bind at 1. unfold Doctor.float_input. simpl. rewrite Hin. simpl.
  destruct (Doctor.float_ge tem Doctor.threshold) eqn:Hge.
  - unfold bind, modify, Doctor.add_performance, Doctor.load, attr, bind,
      modify, ret. simpl.
    rewrite Ho. simpl. rewrite Hperf. simpl. rewrite lookup_insert_eq. simpl.
    rewrite Hloc. simpl.
    eexists _, _. split; [done|]. simpl. rewrite lookup_insert_eq.
    split; [done|]. split; [done|]. split; [done|]. split; [done|].
    intros q ->. pose proof (float_ge_real q) as Hq. by rewrite Hge in Hq.
  - unfold bind, modify, Doctor.load, attr, ret. simpl.
    rewrite Ho. simpl. rewrite Hloc. simpl.
    eexists _, _. split; [done|]. simpl. rewrite Ho.
    split; [done|]. split; [done|]. split; [done|]. split; [done|].
    intros q ->. pose proof (float_ge_real q) as Hq. by rewrite Hge in Hq.
Qed.

Lemma treat_effect_witness :
  exists s',
    Doctor.execute_action 0%nat (Some "treat")
      (heap (doctor_in_A [Some (Doctor.Real (197 # 2))])) = (s', Ok tt)
    /\ Doctor.status (world s') !! Some Doctor.room_A = Some "healthy"
    /\ (performance <$> objs s' !! 0%nat) = Some (Some 10).
Proof.
  destruct (treat_effect 0%nat
              (heap (doctor_in_A [Some (Doctor.Real (197 # 2))]))
              (Object KAgent (Some true) (Some 0) (Some (PClosure 0%nat))
                 (Some (Some Doctor.room_A)))
              (Some Doctor.room_A) 0 (Doctor.Real (197 # 2)) [])
    as (s' & o' & Hrun & Hstatus & Ho' & _ & Hperf & _);
    [vm_compute; reflexivity..|].
  exists s'. split; [exact Hrun|]. split.
  - rewrite Hstatus. apply lookup_insert_eq.
  - etrans; [exact (f_equal (fmap performance) Ho')|].
    simpl. rewrite Hperf. reflexivity.
Defined.

(** *** An agent built without a program *)

(** [environment.add_thing(Agent(), room_A)] in a ward. *)
Definition agent_without_program : denv :=
  let s := Store {[ 0%nat := new_Agent PNone ]} ∅ (ward []) [] in
  (add_thing doctor (inl 0%nat) (Some Doctor.room_A) (init s)).1.

(** C5 fails on the code: [step()] on that environment raises [TypeError]
    when it calls the agent's program, before any action is executed. *)
Theorem none_program_step_raises :
  step doctor agent_without_program
    = (logged agent_without_program false, Raise TypeError)
  /\ executed (calls (step doctor agent_without_program).1) = [].
Proof.
  assert (Hstep : step doctor agent_without_program
                  = (logged agent_without_program false, Raise TypeError)).
  { apply (step_none_program doctor 0%nat [] agent_without_program
             (Object KAgent (Some true) (Some 0) (Some PNone)
                (Some (Some Doctor.room_A)))
             (Some Doctor.room_A, "unhealthy"));
      vm_compute; reflexivity. }
  split; [exact Hstep|]. rewrite Hstep. reflexivity.
Qed.

(** *** Two agents, one of them dead *)

(** Two doctor agents, the first in room A and the second in room B; the
    second has been marked dead from outside. *)
Definition one_dead_agent : denv :=
  let s0 := Store ∅ ∅ (ward [Some (Doctor.Real 99)]) [] in
  let s1 := (Doctor.TableDrivenDoctorAgent s0).1 in
  let s2 := (Doctor.TableDrivenDoctorAgent s1).1 in
  let e1 := (add_thing doctor (inl 0%nat) (Some Doctor.room_A) (init s2)).1 in
  let e2 := (add_thing doctor (inl 1%nat) (Some Doctor.room_B) e1).1 in
  set_heap (set_objs (alter (fun o =>
    Object (cls o) (Some false) (performance o) (program o) (location o)) 1%nat)) e2.

Lemma execute_once_per_agent_witness :
  exists evs,
    calls (step doctor one_dead_agent).1 = calls one_dead_agent ++ evs
    /\ (executed evs).*1 = [0%nat; 1%nat]
    /\ (1%nat, Some EmptyString) ∈ executed evs.
Proof.
  destruct (execute_once_per_agent doctor one_dead_agent)
    as (evs & Hcalls & _ & Hagents & _ & Hdead & _);
    [vm_compute; reflexivity|].
  exists evs. split; [exact Hcalls|]. split.
  - apply Hagents. vm_compute. reflexivity.
  - apply (Hdead 1%nat
             (Object KAgent (Some false) (Some 0) (Some (PClosure 1%nat))
                (Some (Some Doctor.room_B)))).
    + right. left.
    + vm_compute. reflexivity.
    + reflexivity.
    + vm_compute. reflexivity.
Defined.

(** *** A step that raises *)

(** Two doctors in the unhealthy room A, and a first line at the prompt
    that is not a number. *)
Definition two_doctors_bad_line : denv :=
  let s0 := Store ∅ ∅ (ward [None]) [] in
  let s1 := (Doctor.TableDrivenDoctorAgent s0).1 in
  let s2 := (Doctor.TableDrivenDoctorAgent s1).1 in
  let e1 := (add_thing doctor (inl 0%nat) (Some Doctor.room_A) (init s2)).1 in
  (add_thing doctor (inl 1%nat) (Some Doctor.room_A) e1).1.

(** C10 in the specification's words: during a [step()] on an environment
    that is not done, [execute_action] is invoked exactly once for every
    agent of [self.agents]. *)
Definition every_agent_executed (e : denv) : Prop :=
  (is_done e).2 = Ok false ->
  forall evs, calls (step doctor e).1 = calls e ++ evs ->
    (executed evs).*1 ≡ₚ agents e.

(** C10, as stated, fails.  Both doctors decide to treat; [float] raises
    [ValueError] on the line read for the first one, the exception leaves
    [step()], and [execute_action] is never invoked for the second. *)
Lemma second_doctor_not_executed :
  (is_done two_doctors_bad_line).2 = Ok false
  /\ agents two_doctors_bad_line = [0%nat; 1%nat]
  /\ (step doctor two_doctors_bad_line).2 = Raise ValueError
  /\ executed (calls (step doctor two_doctors_bad_line).1)
       = [(0%nat, Some "treat")]
  /\ ~ every_agent_executed two_doctors_bad_line.
Proof.
  split; [vm_compute; reflexivity|].
  split; [vm_compute; reflexivity|].
  split; [vm_compute; reflexivity|].
  split; [vm_compute; reflexivity|].
  intros Hclaim.
  assert (Hperm : [0%nat] ≡ₚ [0%nat; 1%nat]).
  { apply (Hclaim eq_refl
             [EStep false;
              EProgram 0%nat (Some Doctor.room_A, "unhealthy") (Some "treat");
              EProgram 1%nat (Some Doctor.room_A, "unhealthy") (Some "treat");
              EExecute 0%nat (Some "treat")]).
    vm_compute. reflexivity. }
  apply Permutation_length in Hperm. discriminate Hperm.
Qed.

Lemma agents_subset_things_witness :
  agents (step doctor (doctor_in_A [Some (Doctor.Real 100)])).1
  ⊆ thing (step doctor (doctor_in_A [Some (Doctor.Real 100)])).1.
Proof.
  apply (agents_subset_things doctor).
  apply reach_step. unfold doctor_in_A. apply reach_add, reach_init.
Defined.

End DoctorFacts.

(** * Further properties of the code *)

(** ** More on the abstract Environment *)

Section EnvMore.
Import Py Env.
Local Open Scope py_scope.
Context {P : Type} `{Countable P} {Loc W : Type}.
Variable E : hooks P Loc W.
Implicit Types (e : environment P Loc W) (s : store P Loc W).
Implicit Types (a t : ref) (o : object Loc).

(** *** The base class cannot be stepped *)

Lemma any_alive_heap (l : list ref) e1 e2 :
  heap e1 = heap e2 -> (any_alive l e1).2 = (any_alive l e2).2.
Proof.
  intros Hh. induction l as [|a l IH]; simpl; [done|].
  unfold bind, deref. rewrite Hh.
  destruct (objs (heap e2) !! a) as [o|]; [|done].
  by destruct (is_alive o).
Qed.

(** Every agent of [l] is an object that has the attributes [alive] and
    [program], as [Agent.__init__] sets them. *)
Definition constructed_agents e (l : list ref) : Prop :=
  forall a, a ∈ l ->
    exists o b f, objs (heap e) !! a = Some o /\ alive o = Some b
                  /\ program o = Some f.

Lemma base_decide_raises (l : list ref) e :
  constructed_agents e l ->
  (any_alive l e).2 = Ok true ->
  decide_actions (@Environment_base P _ _ Loc W) l e
    = (e, Raise NotImplementedError).
Proof.
  induction l as [|a l IH]; intros Hl Hlive; [done|].
  rewrite decide_actions_cons.
  destruct (Hl a) as (o & b & f & Ho & Hb & Hf); [by left|].
  rewrite Ho, Hb. destruct b.
  - by rewrite Hf.
  - rewrite IH; [done| |].
    + intros a' Ha'. apply Hl. by right.
    + simpl in Hlive. unfold bind, deref, is_alive in Hlive.
      by rewrite Ho, Hb in Hlive.
Qed.

(** On an instance of the base class that is not done, [step()] raises
    [NotImplementedError] from [percept]: no program is called, no action is
    executed, and nothing but the call record changes. *)
Theorem base_step_not_implemented e :
  constructed_agents e (agents e) ->
  (is_done e).2 = Ok false ->
  step (@Environment_base P _ _ Loc W) e
    = (logged e false, Raise NotImplementedError).
Proof.
  intros Hl Hd. rewrite step_eq, Hd. rewrite base_decide_raises; [done..|].
  rewrite (any_alive_heap _ _ e) by done.
  unfold is_done, bind, gets in Hd. simpl in Hd.
  destruct (any_alive (agents e) e) as [e1 [[|]|x]]; simpl in *; done.
Qed.

(** *** What a first registration writes *)

(** The object [o] after [add_thing] has placed it at [pos]. *)
Definition registered_at (pos : option Loc) o : object Loc :=
  match cls o with
  | KThing => Object KThing (alive o) (performance o) (program o) (Some pos)
  | KAgent => Object KAgent (alive o) (Some 0) (program o) (Some pos)
  end.

Lemma add_thing_at t pos e o :
  t ∉ thing e -> objs (heap e) !! t = Some o ->
  add_thing E (inl t) (Some pos) e =
    (Environment (set_objs <[t := registered_at (Some pos) o]> (heap e))
       (thing e ++ [t])
       (match cls o with KThing => agents e | KAgent => agents e ++ [t] end)
       (calls e),
     Ok tt).
Proof.
  intros Hnew Ho. unfold add_thing. unfold bind at 1. simpl.
  unfold bind at 1. simpl. rewrite decide_False by done.
  unfold update, bind, deref, modify. simpl. rewrite Ho. simpl.
  rewrite lookup_insert_eq. simpl. unfold registered_at, set_heap, set_objs.
  destruct (cls o) eqn:Hcls; simpl; [done|].
  rewrite lookup_insert_eq. simpl. by rewrite insert_insert_eq.
Qed.

(** A value that is not a [Thing] is wrapped in a new Agent before anything
    else happens. *)
Lemma add_thing_inr (f : progval) loc e :
  add_thing E (inr f) loc e =
    add_thing E (inl (fresh (dom (objs (heap e))))) loc
      (set_heap (set_objs <[fresh (dom (objs (heap e))) := new_Agent f]>) e).
Proof. reflexivity. Qed.

(** [add_thing(f, pos)] for a value [f] that is not a [Thing], in an
    environment whose things all exist: it returns, having registered in
    both lists a new agent that is alive, has performance 0, holds [f] as
    its program and stands at [pos]; no duplicate is ever reported, so
    adding the same value twice registers two agents. *)
Theorem add_thing_wraps (f : progval) pos e :
  allocated e (thing e) ->
  let t := fresh (dom (objs (heap e))) in
  objs (heap e) !! t = None
  /\ (t ∉ thing e)
  /\ add_thing E (inr f) (Some pos) e =
       (Environment
          (set_objs <[t := Object KAgent (Some true) (Some 0) (Some f)
                             (Some (Some pos))]> (heap e))
          (thing e ++ [t]) (agents e ++ [t]) (calls e),
        Ok tt).
Proof.
  intros Hall t.
  assert (Hfresh : objs (heap e) !! t = None).
  { apply not_elem_of_dom, is_fresh. }
  assert (Hnew : t ∉ thing e).
  { intros Hin. destruct (Hall t Hin) as [o Ho]. fold t in Hfresh. congruence. }
  split; [done|]. split; [done|].
  rewrite add_thing_inr. fold t.
  rewrite (add_thing_at t pos _ (new_Agent f)); [|done|apply lookup_insert_eq].
  simpl. unfold set_objs. simpl. by rewrite insert_insert_eq.
Qed.

(** In the base class, whose [default_location] returns [None],
    [add_thing(thing, loc)] of an existing instance that is not yet
    registered returns and stores [loc] itself as the location, [None]
    included.  A plain [Thing] is appended to [self.thing] only and keeps
    its other attributes; an [Agent] is also appended to [self.agents], with
    performance 0. *)
Theorem base_add_thing t (loc : option Loc) e o :
  t ∉ thing e -> objs (heap e) !! t = Some o ->
  add_thing (@Environment_base P _ _ Loc W) (inl t) loc e =
    (Environment (set_objs <[t := registered_at loc o]> (heap e))
       (thing e ++ [t])
       (match cls o with KThing => agents e | KAgent => agents e ++ [t] end)
       (calls e),
     Ok tt).
Proof.
  intros Hnew Ho. unfold add_thing. unfold bind at 1. simpl.
  unfold bind at 1. simpl. rewrite decide_False by done.
  destruct loc as [pos|];
    unfold update, bind, deref, modify, lift_store; simpl; rewrite Ho; simpl;
    rewrite lookup_insert_eq; simpl; unfold registered_at, set_heap, set_objs;
    (destruct (cls o) eqn:Hcls; simpl; [done|]);
    rewrite lookup_insert_eq; simpl; by rewrite insert_insert_eq.
Qed.

(** *** Registering and removing *)

Lemma list_remove_last (x : ref) (xs : list ref) :
  x ∉ xs -> list_remove x (xs ++ [x]) = Some xs.
Proof.
  induction xs as [|y xs IH]; intros Hx; simpl.
  - by rewrite decide_True.
  - rewrite decide_False by (intros ->; apply Hx; by left).
    rewrite IH; [done|]. intros Hin. apply Hx. by right.
Qed.

(** In an environment built through the methods, removing an instance just
    after its first registration gives back the two lists as they were
    before it, and reports nothing. *)
Theorem add_then_delete t loc e :
  reachable E e -> t ∉ thing e ->
  (add_thing E (inl t) loc e).2 = Ok tt ->
  let e' := (add_thing E (inl t) loc e).1 in
  thing (delete_thing t e').1 = thing e
  /\ agents (delete_thing t e').1 = agents e
  /\ heap (delete_thing t e').1 = heap e'.
Proof.
  intros Hr Hnew Hok.
  destruct (add_thing E (inl t) loc e) as [e' r] eqn:Hadd. simpl in *. subst r.
  destruct (reachable_ok E e Hr) as (_ & _ & Hsub).
  assert (Hnew' : t ∉ agents e) by (intros Hin; by apply Hnew, Hsub).
  destruct (add_thing_new E t loc e e' Hnew Hadd) as (o' & _ & Hth & _ & Hcls).
  rewrite delete_thing_eq. simpl. rewrite Hth, (list_remove_last _ _ Hnew).
  destruct (cls o').
  - rewrite Hcls. apply list_remove_None in Hnew'. by rewrite Hnew'.
  - destruct Hcls as [-> _]. by rewrite (list_remove_last _ _ Hnew').
Qed.

(** *** Running in instalments *)

Lemma bind_assoc {S A B C} (m : M S A) (k1 : A -> M S B) (k2 : B -> M S C) st :
  bind (bind m k1) k2 st = bind m (fun x => bind (k1 x) k2) st.
Proof. unfold bind. by destruct (m st) as [s1 [x|x]]. Qed.

Lemma bind_is_done {B} (k : bool -> M (environment P Loc W) B) e :
  bind is_done k e =
    match (is_done e).2 with
    | Ok d => k d e
    | Raise x => (e, Raise x)
    end.
Proof.
  unfold bind. pose proof (is_done_state e) as Hst.
  destruct (is_done e) as [e1 [d|x]]; simpl in *; by subst.
Qed.

Lemma run_loop_add (n m : nat) : forall e,
  run_loop E (n + m) e = (run_loop E n ;; run_loop E m)%py e.
Proof.
  induction n as [|n IH]; intros e; [done|].
  simpl. rewrite bind_assoc, !bind_is_done.
  destruct (is_done e).2 as [[|]|x] eqn:Hd; [| |done].
  - symmetry. by apply run_loop_done.
  - rewrite bind_assoc. unfold bind.
    destruct (step E e) as [e1 [[]|x]]; [|done]. apply IH.
Qed.

(** [run(a + b)] is [run(a)] followed by [run(b)], for [a] and [b] that are
    not negative: same final environment, same outcome.  So calling
    [run(steps=1)] twice, as the main program does, is [run(2)]. *)
Theorem run_in_instalments (a b : Z) e :
  (0 <= a)%Z -> (0 <= b)%Z ->
  run E (a + b) e = (run E a ;; run E b)%py e.
Proof.
  intros Ha Hb. unfold run. rewrite Z2Nat.inj_add by done.
  apply run_loop_add.
Qed.

End EnvMore.

(** ** What a step keeps when the hooks keep it *)

Section StepFrame.
Import Py Env.
Local Open Scope py_scope.
Context {P : Type} `{Countable P} {Loc W : Type}.
Variable E : hooks P Loc W.
Variable RS : relation (store P Loc W).
Context `{!PreOrder RS}.
Hypothesis RS_closures : forall s cs, RS s (set_closures cs s).
Hypothesis RS_hook : forall a act, respects RS (execute_action E a act).

(** The store moves along [RS] and the two lists stay. *)
Definition lifted (e e' : environment P Loc W) : Prop :=
  RS (heap e) (heap e') /\ thing e' = thing e /\ agents e' = agents e.

#[local] Instance lifted_preorder : PreOrder lifted.
Proof.
  split.
  - intros e. by repeat split.
  - intros e1 e2 e3 (H1 & H2 & H3) (H4 & H5 & H6).
    repeat split; [by etrans | congruence..].
Qed.

Lemma log_lifted ev : respects lifted (log ev).
Proof. intros e. by repeat split. Qed.

Lemma call_program_lifted a f p : respects lifted (call_program a f p).
Proof.
  destruct f as [|c]; [apply respects_raise; apply _|]. intros e. simpl.
  destruct (Program.call c p _) as [[[key act] cs']|]; simpl; [|done].
  repeat split. apply RS_closures.
Qed.

Lemma is_done_lifted : respects lifted is_done.
Proof. intros e. by rewrite is_done_state. Qed.

Lemma hook_lifted a act : respects lifted (lift_store (execute_action E a act)).
Proof.
  intros e. unfold lift_store. pose proof (RS_hook a act (heap e)) as Hs.
  destruct (execute_action E a act (heap e)) as [s r]. by repeat split.
Qed.

Hint Resolve deref_respects perceive_respects log_lifted call_program_lifted
  is_done_lifted hook_lifted : frame.

Lemma decide_actions_lifted (l : list ref) :
  respects lifted (decide_actions E l).
Proof. induction l as [|a l IH]; simpl; frame. Qed.

Lemma apply_actions_lifted (xs : list (ref * option string)) :
  respects lifted (apply_actions E xs).
Proof. induction xs as [|[a act] xs IH]; simpl; frame. Qed.

Hint Resolve decide_actions_lifted apply_actions_lifted : frame.

Lemma step_lifted : respects lifted (step E).
Proof. unfold step. frame. Qed.

Hint Resolve step_lifted : frame.

Lemma run_loop_lifted n : respects lifted (run_loop E n).
Proof. induction n as [|n IH]; simpl; frame. Qed.

End StepFrame.

(** ** More on the doctor environment *)

Module DoctorMore.
Import Py Env.
Local Open Scope py_scope.

Abbreviation dstore := (store (option Doctor.Loc * string) Doctor.Loc Doctor.hospital).
Abbreviation denv := (environment (option Doctor.Loc * string) Doctor.Loc Doctor.hospital).
Abbreviation doctor := Doctor.TrivialDoctorEnvironment_hooks.

(** *** The table of the doctor agent *)

Definition is_room (l : Doctor.Loc) : Prop :=
  l = Doctor.room_A \/ l = Doctor.room_B.

Definition is_status (st : string) : Prop :=
  st = "healthy" \/ st = "unhealthy".

(** What a reflex doctor does on its latest percept: treat an unhealthy
    room, leave a healthy one for the other room. *)
Definition reflex_action (l : Doctor.Loc) (st : string) : string :=
  if decide (st = "unhealthy") then "treat"
  else if decide (l = Doctor.room_A) then "Right" else "Left".

Lemma doctor_table_entry key action :
  Doctor.doctor_table !! key = Some action ->
  (1 <= length key <= 3)%nat
  /\ exists l st,
       last key = Some (Some l, st) /\ is_room l /\ is_status st
       /\ action = reflex_action l st.
Proof.
  intros Hkey. unfold Doctor.doctor_table in Hkey.
  apply elem_of_list_to_map_2 in Hkey.
  repeat (apply elem_of_cons in Hkey as [Hkey|Hkey];
          [injection Hkey as -> ->; simpl; split; [lia|];
           eexists _, _; split; [reflexivity|];
           unfold is_room, is_status; split; [auto|]; split; [auto|];
           reflexivity|]).
  by apply elem_of_nil in Hkey.
Qed.

(** Every entry of the doctor's table has a key of one to three percepts
    that ends with the percept of a room, and its action is the reflex
    action on that last percept; and each of the four one-percept sequences
    is a key. *)
Theorem doctor_table_reflex :
  (forall key action,
     Doctor.doctor_table !! key = Some action ->
     (1 <= length key <= 3)%nat
     /\ exists l st,
          last key = Some (Some l, st) /\ is_room l /\ is_status st
          /\ action = reflex_action l st)
  /\ (forall l st, is_room l -> is_status st ->
        Doctor.doctor_table !! [(Some l, st)] = Some (reflex_action l st)).
Proof.
  split; [apply doctor_table_entry|].
  intros l st [->| ->] [->| ->]; vm_compute; reflexivity.
Qed.

Lemma doctor_table_long key :
  (3 < length key)%nat -> Doctor.doctor_table !! key = None.
Proof.
  intros Hlen. destruct (Doctor.doctor_table !! key) as [action|] eqn:Hkey;
    [|done].
  destruct (doctor_table_entry key action Hkey) as [[_ Hle] _]. lia.
Qed.

(** *** The statements of [execute_action], one by one *)

Definition placed_at (l : Doctor.Loc) (o : object Doctor.Loc) :=
  Object (cls o) (alive o) (performance o) (program o) (Some (Some l)).

Definition scored (p : Z) (o : object Doctor.Loc) :=
  Object (cls o) (alive o) (Some p) (program o) (location o).

Definition consume (rest : list (option Doctor.float)) (s : dstore) : dstore :=
  set_world (fun w => Doctor.Hospital (Doctor.status w) rest (Doctor.rng w)
                        (Doctor.rng_pos w)) s.

Definition heal (l : option Doctor.Loc) (s : dstore) : dstore :=
  set_world (Doctor.set_status <[l := "healthy"]>) s.

Definition prompt : string := "Enter your temperature: ".
Definition prescription : string :=
  "medicine prescribed: paracetamol and anti-biotic(low dose)".

Lemma assign_location_eq (agent : ref) (l : Doctor.Loc) (s : dstore) :
  Doctor.assign_location agent l s =
    match objs s !! agent with
    | Some o => (set_objs <[agent := placed_at l o]> s, Ok tt)
    | None => (s, Raise NoSuchObject)
    end.
Proof.
  unfold Doctor.assign_location, bind, Doctor.load, modify.
  by destruct (objs s !! agent).
Qed.

Lemma add_performance_eq (agent : ref) (d : Z) (s : dstore) :
  Doctor.add_performance agent d s =
    match objs s !! agent with
    | Some o =>
        match performance o with
        | Some p => (set_objs <[agent := scored (p + d) o]> s, Ok tt)
        | None => (s, Raise AttributeError)
        end
    | None => (s, Raise NoSuchObject)
    end.
Proof.
  unfold Doctor.add_performance, bind, Doctor.load, attr, modify.
  destruct (objs s !! agent) as [o|]; [|done].
  by destruct (performance o).
Qed.

Lemma float_input_eq (s : dstore) :
  Doctor.float_input prompt s =
    match Doctor.stdin (world s) with
    | [] => (print_line prompt s, Raise EOFError)
    | Some x :: rest => (consume rest (print_line prompt s), Ok x)
    | None :: rest => (consume rest (print_line prompt s), Raise ValueError)
    end.
Proof.
  unfold Doctor.float_input. simpl.
  by destruct (Doctor.stdin (world s)) as [|[x|] rest].
Qed.

(** A relation on stores that every statement of [execute_action agent]
    moves along is one that the whole method moves along, however it ends. *)
Section DoctorFrame.
Variable agent : ref.
Variable R : relation dstore.
Context `{!PreOrder R}.
Hypothesis R_place : forall (s : dstore) o (l : Doctor.Loc),
  objs s !! agent = Some o -> is_room l ->
  R s (set_objs <[agent := placed_at l o]> s).
Hypothesis R_score : forall (s : dstore) o (p d : Z),
  objs s !! agent = Some o -> performance o = Some p ->
  R s (set_objs <[agent := scored (p + d) o]> s).
Hypothesis R_print : forall (s : dstore) line, R s (print_line line s).
Hypothesis R_read : forall (s : dstore) line rest,
  Doctor.stdin (world s) = line :: rest -> R s (consume rest s).
Hypothesis R_heal : forall (s : dstore) l, R s (heal l s).

Lemma assign_location_respects (l : Doctor.Loc) :
  is_room l -> respects R (Doctor.assign_location agent l).
Proof.
  intros Hl s. rewrite assign_location_eq.
  destruct (objs s !! agent) as [o|] eqn:Ho; simpl; [|reflexivity].
  by apply R_place.
Qed.

Lemma add_performance_respects (d : Z) :
  respects R (Doctor.add_performance agent d).
Proof.
  intros s. rewrite add_performance_eq.
  destruct (objs s !! agent) as [o|] eqn:Ho; simpl; [|reflexivity].
  destruct (performance o) as [p|] eqn:Hp; simpl; [|reflexivity].
  by apply R_score.
Qed.

Lemma float_input_respects : respects R (Doctor.float_input prompt).
Proof.
  intros s. rewrite float_input_eq.
  destruct (Doctor.stdin (world s)) as [|[x|] rest] eqn:Hin; simpl.
  - apply R_print.
  - etrans; [apply R_print|]. by eapply R_read.
  - etrans; [apply R_print|]. by eapply R_read.
Qed.

Lemma load_respects (a : ref) : respects R (Doctor.load a).
Proof. intros s. unfold Doctor.load. by destruct (objs s !! a). Qed.

Hint Resolve assign_location_respects add_performance_respects
  float_input_respects load_respects : frame.

Lemma execute_action_respects action :
  respects R (Doctor.execute_action agent action).
Proof.
  unfold Doctor.execute_action. fold prompt. fold prescription.
  assert (HA : is_room Doctor.room_A) by (by left).
  assert (HB : is_room Doctor.room_B) by (by right).
  pose proof R_heal as Hheal. unfold heal in Hheal.
  repeat case_decide; frame; intros s0; simpl;
    first [apply R_print | apply Hheal].
Qed.

End DoctorFrame.

(** *** What acting for one agent leaves alone *)

(** The attributes of an object that no action writes. *)
Definition identity (o : object Doctor.Loc) : klass * option bool * option progval :=
  (cls o, alive o, program o).

(** [acts_for agent s s']: from [s] to [s'] no program closure and no random
    draw was touched, every object but [agent] is as it was, every object
    (the agent too) kept its class, liveness and program, output was only
    appended, input only consumed from the front, and no status entry was
    dropped. *)
Definition acts_for (agent : ref) (s s' : dstore) : Prop :=
  closures s' = closures s
  /\ Doctor.rng (world s') = Doctor.rng (world s)
  /\ Doctor.rng_pos (world s') = Doctor.rng_pos (world s)
  /\ (forall a : ref, a <> agent -> objs s' !! a = objs s !! a)
  /\ (forall a : ref, identity <$> objs s' !! a = identity <$> objs s !! a)
  /\ stdout s `prefix_of` stdout s'
  /\ Doctor.stdin (world s') `suffix_of` Doctor.stdin (world s)
  /\ dom (Doctor.status (world s)) ⊆ dom (Doctor.status (world s')).

#[local] Instance acts_for_preorder agent : PreOrder (acts_for agent).
Proof.
  split.
  - intros s. by repeat split.
  - intros s1 s2 s3 (H1 & H2 & H3 & H4 & H5 & H6 & H7 & H8)
                    (G1 & G2 & G3 & G4 & G5 & G6 & G7 & G8).
    repeat split;
      first [ congruence | by etrans
            | intros a Ha; by rewrite G4, H4 | intros a; by rewrite G5, H5 ].
Qed.

Lemma acts_for_write (agent : ref) (s : dstore) o o' :
  objs s !! agent = Some o -> identity o' = identity o ->
  acts_for agent s (set_objs <[agent := o']> s).
Proof.
  intros Ho Hid. repeat split; simpl; try done.
  - intros a Ha. by rewrite lookup_insert_ne.
  - intros a. destruct (decide (a = agent)) as [->|Ha].
    + rewrite lookup_insert_eq, Ho. simpl. by rewrite Hid.
    + by rewrite lookup_insert_ne.
Qed.

Lemma execute_action_acts_for (agent : ref) (action : option string) (s : dstore) :
  acts_for agent s (Doctor.execute_action agent action s).1.
Proof.
  apply (execute_action_respects agent (acts_for agent)).
  - intros s0 o l Ho _. by apply (acts_for_write agent s0 o).
  - intros s0 o p d Ho _. by apply (acts_for_write agent s0 o).
  - intros s0 line. repeat split; simpl; try done. by exists [line].
  - intros s0 line rest Hin. repeat split; simpl; try done.
    rewrite Hin. by apply suffix_cons_r.
  - intros s0 l. repeat split; simpl; try done.
    apply dom_insert_subseteq.
Qed.

(** Whatever the agent, the action and the outcome, [execute_action]
    changes no object but the agent's and, of the agent, neither class,
    liveness nor program; it leaves every program's history and the random
    generator alone, only appends to the output, only consumes input from
    the front and removes no status entry. *)
Theorem execute_action_frame (agent : ref) (action : option string) (s : dstore) :
  let s' := (Doctor.execute_action agent action s).1 in
  closures s' = closures s
  /\ Doctor.rng (world s') = Doctor.rng (world s)
  /\ Doctor.rng_pos (world s') = Doctor.rng_pos (world s)
  /\ (forall a : ref, a <> agent -> objs s' !! a = objs s !! a)
  /\ (forall a : ref, identity <$> objs s' !! a = identity <$> objs s !! a)
  /\ stdout s `prefix_of` stdout s'
  /\ Doctor.stdin (world s') `suffix_of` Doctor.stdin (world s)
  /\ dom (Doctor.status (world s)) ⊆ dom (Doctor.status (world s')).
Proof. apply execute_action_acts_for. Qed.

(** *** Nothing ends a doctor's run but the step bound *)

Definition same_identities (s s' : dstore) : Prop :=
  forall a : ref, identity <$> objs s' !! a = identity <$> objs s !! a.

#[local] Instance same_identities_preorder : PreOrder same_identities.
Proof.
  split.
  - by intros s a.
  - intros s1 s2 s3 H1 H2 a. by rewrite H2, H1.
Qed.

Lemma any_alive_identities (l : list ref) (e e' : denv) :
  same_identities (heap e) (heap e') ->
  (any_alive l e').2 = (any_alive l e).2.
Proof.
  intros Hid. induction l as [|a l IH]; simpl; [done|].
  unfold bind, deref. specialize (Hid a).
  destruct (objs (heap e') !! a) as [o'|], (objs (heap e) !! a) as [o|];
    simpl in Hid; try done.
  injection Hid as _ Hal _. unfold is_alive. rewrite Hal.
  by destruct (alive o) as [[|]|].
Qed.

Lemma is_done_identities (e e' : denv) :
  lifted same_identities e e' -> (is_done e').2 = (is_done e).2.
Proof.
  intros (Hid & _ & Hags). unfold is_done, bind, gets. simpl. rewrite Hags.
  pose proof (any_alive_identities (agents e) e e' Hid) as Hany.
  destruct (any_alive (agents e) e') as [e1' [b'|x']],
           (any_alive (agents e) e) as [e1 [b|x]]; simpl in *; congruence.
Qed.

Lemma doctor_step_identities (e : denv) :
  lifted same_identities e (step doctor e).1.
Proof.
  apply (step_lifted doctor same_identities).
  - by intros s cs a.
  - intros a act s. by destruct (execute_action_acts_for a act s) as (_ & _ & _ & _ & Hid & _).
Qed.

Lemma doctor_run_loop_exact n : forall e : denv,
  (is_done e).2 = Ok false ->
  (run_loop doctor n e).2 = Ok tt ->
  exists evs,
    calls (run_loop doctor n e).1 = calls e ++ evs
    /\ length (step_flags evs) = n
    /\ (is_done (run_loop doctor n e).1).2 = Ok false.
Proof.
  induction n as [|n IH]; intros e Hd Hok.
  { exists []. simpl. by rewrite app_nil_r. }
  simpl in *. rewrite bind_is_done in *. rewrite Hd in *.
  unfold bind in *.
  destruct (step_trace doctor e) as (entry & decided & exe & Hc & _ & Hall & _ & Hfull).
  pose proof (is_done_identities _ _ (doctor_step_identities e)) as Hkeep.
  destruct (step doctor e) as [e1 [[]|x]]; simpl in *; [|done].
  destruct (Hfull eq_refl Hd) as (acts & -> & _ & _).
  rewrite Hd in Hkeep.
  destruct (IH e1 Hkeep Hok) as (evs & Hc1 & Hlen & Hd1).
  exists (([EStep false] ++ decided ++ map execute_call exe) ++ evs).
  rewrite Hc1, Hc, <- app_assoc. split; [done|]. split; [|done].
  assert (H1 : step_flags decided = []) by (by eapply step_flags_sees_pre).
  assert (H2 : step_flags (map (@execute_call (option Doctor.Loc * string)) exe)
               = []) by apply step_flags_execute.
  unfold step_flags in *. rewrite !omap_app, !length_app, H1, H2. simpl. lia.
Qed.

(** In the doctor environment no action changes an agent's liveness.  So a
    [run(steps)] that starts on an environment that is not done and returns
    has entered [step()] exactly [steps] times (none for a negative
    [steps]), and the environment is still not done afterwards. *)
Theorem doctor_runs_to_the_bound (e : denv) (steps : Z) :
  (is_done e).2 = Ok false ->
  (run doctor steps e).2 = Ok tt ->
  exists evs,
    calls (run doctor steps e).1 = calls e ++ evs
    /\ Z.of_nat (length (step_flags evs)) = Z.max 0 steps
    /\ (is_done (run doctor steps e).1).2 = Ok false.
Proof.
  intros Hd Hok.
  destruct (doctor_run_loop_exact (Z.to_nat steps) e Hd Hok)
    as (evs & Hc & Hlen & Hd').
  exists evs. repeat split; [done | lia | done].
Qed.

(** *** Moving *)

(** ["Right"] and ["Left"] put the agent in room B and room A and take 1 off
    its performance; nothing else in the store changes, and no input is
    read.  For an object without a [performance] attribute the location is
    written before the [AttributeError] is raised. *)
Theorem move_effect (agent : ref) (s : dstore) o :
  objs s !! agent = Some o ->
  (forall p, performance o = Some p ->
     Doctor.execute_action agent (Some "Right") s
       = (set_objs <[agent := scored (p - 1) (placed_at Doctor.room_B o)]> s, Ok tt)
     /\ Doctor.execute_action agent (Some "Left") s
       = (set_objs <[agent := scored (p - 1) (placed_at Doctor.room_A o)]> s, Ok tt))
  /\ (performance o = None ->
     Doctor.execute_action agent (Some "Right") s
       = (set_objs <[agent := placed_at Doctor.room_B o]> s, Raise AttributeError)
     /\ Doctor.execute_action agent (Some "Left") s
       = (set_objs <[agent := placed_at Doctor.room_A o]> s, Raise AttributeError)).
Proof.
  intros Ho. unfold Doctor.execute_action.
  rewrite decide_True by done. rewrite decide_False by discriminate.
  rewrite decide_True by done. unfold bind.
  rewrite !assign_location_eq, Ho, !add_performance_eq. simpl.
  rewrite !lookup_insert_eq. simpl. split.
  - intros p Hp. rewrite Hp. unfold set_objs. simpl.
    by rewrite !insert_insert_eq.
  - intros Hp. by rewrite Hp.
Qed.

(** *** A treatment without a number *)

(** ["treat"] writes the prompt and then raises [EOFError] when no line is
    left, or [ValueError] when the line read is not a number, which it has
    consumed; in both cases before any reward is given or any status is
    written. *)
Theorem treat_without_number (agent : ref) (s : dstore) :
  (Doctor.stdin (world s) = [] ->
     Doctor.execute_action agent (Some "treat") s
       = (print_line prompt s, Raise EOFError))
  /\ (forall rest, Doctor.stdin (world s) = None :: rest ->
       Doctor.execute_action agent (Some "treat") s
         = (consume rest (print_line prompt s), Raise ValueError)).
Proof.
  unfold Doctor.execute_action.
  rewrite !decide_False by discriminate. rewrite decide_True by done.
  fold prompt.
  split; [intros Hin | intros rest Hin];
    unfold bind at 1; by rewrite float_input_eq, Hin.
Qed.

(** *** A doctor whose table is exhausted *)

(** Every program instance of the store runs the doctor's table and has
    already received three percepts. *)
Definition spent (s : dstore) : Prop :=
  forall c cl, closures s !! c = Some cl ->
    Program.table cl = Doctor.doctor_table
    /\ (3 <= length (Program.percepts cl))%nat.

(** The actions that the doctor environment does nothing on: [None] from a
    table without a matching key, and the placeholder of a dead agent. *)
Definition idle (act : option string) : Prop :=
  act = None \/ act = Some EmptyString.

Lemma idle_ignored (a : ref) (act : option string) (s : dstore) :
  idle act -> Doctor.execute_action a act s = (s, Ok tt).
Proof.
  intros [->| ->]; unfold Doctor.execute_action;
    by repeat (rewrite decide_False by discriminate).
Qed.

(** The store but for the program histories. *)
Definition same_world (s s' : dstore) : Prop :=
  objs s' = objs s /\ world s' = world s /\ stdout s' = stdout s.

#[local] Instance same_world_preorder : PreOrder same_world.
Proof.
  split.
  - by intros s.
  - intros s1 s2 s3 (H1 & H2 & H3) (G1 & G2 & G3). repeat split; congruence.
Qed.

Lemma call_program_spent (a : ref) (f : progval)
    (p : option Doctor.Loc * string) (e : denv) :
  spent (heap e) ->
  spent (heap (call_program a f p e).1)
  /\ (forall act, (call_program a f p e).2 = Ok act -> act = None).
Proof.
  intros Hsp. destruct f as [|c]; simpl; [done|].
  destruct (closures (heap e) !! c) as [cl|] eqn:Hc.
  - rewrite (call_eq _ _ _ _ Hc). simpl.
    destruct (Hsp c cl Hc) as [Htbl Hlen]. split.
    + intros c' cl' Hc'. simpl in Hc'.
      destruct (decide (c' = c)) as [->|Hne].
      * rewrite lookup_insert_eq in Hc'. injection Hc' as <-. simpl.
        split; [done|]. rewrite length_app. lia.
      * rewrite lookup_insert_ne in Hc' by done. by apply (Hsp c').
    + intros act [= <-]. rewrite Htbl. apply doctor_table_long.
      rewrite length_app. simpl. lia.
  - unfold Program.call. by rewrite Hc.
Qed.

Lemma decide_actions_spent (l : list ref) : forall e : denv,
  spent (heap e) ->
  spent (heap (decide_actions doctor l e).1)
  /\ (forall acts, (decide_actions doctor l e).2 = Ok acts -> Forall idle acts).
Proof.
  induction l as [|a l IH]; intros e Hsp.
  { split; [done|]. intros acts [= <-]. constructor. }
  rewrite decide_actions_cons.
  destruct (objs (heap e) !! a) as [o|]; [|done].
  destruct (alive o) as [[|]|]; [| |done].
  - destruct (program o) as [f|]; [|done].
    destruct (percept doctor _ _ a) as [p|x]; [|done].
    destruct (call_program_spent a f p e Hsp) as [Hsp1 Hact].
    destruct (call_program a f p e) as [e1 [act|x]]; simpl in *; [|done].
    destruct (IH e1 Hsp1) as [Hsp2 Hacts].
    destruct (decide_actions doctor l e1) as [e2 [acts|x]]; simpl in *; [|done].
    split; [done|]. intros acts' [= <-].
    constructor; [left; by apply Hact | by apply Hacts].
  - destruct (IH e Hsp) as [Hsp2 Hacts].
    destruct (decide_actions doctor l e) as [e2 [acts|x]]; simpl in *; [|done].
    split; [done|]. intros acts' [= <-].
    constructor; [by right | by apply Hacts].
Qed.

Lemma apply_actions_idle (xs : list (ref * option string)) : forall e : denv,
  Forall (fun x => idle x.2) xs ->
  heap (apply_actions doctor xs e).1 = heap e
  /\ (apply_actions doctor xs e).2 = Ok tt.
Proof.
  induction xs as [|x xs IH]; intros e Hall; [done|].
  apply Forall_cons in Hall as [Hx Hall].
  rewrite apply_actions_cons. simpl. rewrite (idle_ignored _ _ _ Hx).
  by destruct (IH (set_heap (fun _ => heap e)
                     (Environment (heap e) (thing e) (agents e)
                        (calls e ++ [execute_call x]))) Hall).
Qed.

Lemma zip_idle (l : list ref) (acts : list (option string)) :
  Forall idle acts -> Forall (fun x => idle x.2) (zip l acts).
Proof.
  intros Hall. revert l. induction Hall as [|act acts Hact _ IH]; intros l.
  - destruct l; constructor.
  - destruct l as [|a l]; simpl; constructor; [done | apply IH].
Qed.

(** [quiet e e']: objects, world and output are the same in [e'] as in [e],
    and the programs of [e'] are spent. *)
Definition quiet (e e' : denv) : Prop :=
  same_world (heap e) (heap e') /\ spent (heap e').

Lemma step_quiet (e : denv) : spent (heap e) -> quiet e (step doctor e).1.
Proof.
  intros Hsp. rewrite step_eq.
  destruct (is_done e).2 as [[|]|x]; [done| |done].
  assert (Hsp0 : spent (heap (logged e false))) by done.
  destruct (decide_actions_spent (agents e) _ Hsp0) as [Hsp1 Hacts].
  destruct (decide_actions_lifted doctor same_world
              (fun s cs => ltac:(done)) (agents e) (logged e false))
    as (Hw & _ & _).
  destruct (decide_actions doctor (agents e) (logged e false))
    as [e2 [acts|x]]; simpl in *; [|done].
  destruct (apply_actions_idle (zip (agents e) acts) e2) as [Hh _].
  { by apply zip_idle, Hacts. }
  unfold quiet. by rewrite Hh.
Qed.

Lemma run_loop_quiet n : forall e : denv,
  spent (heap e) -> quiet e (run_loop doctor n e).1.
Proof.
  induction n as [|n IH]; intros e Hsp; [done|].
  simpl. rewrite bind_is_done.
  destruct (is_done e).2 as [[|]|x]; [done| |done].
  unfold bind. destruct (step_quiet e Hsp) as [Hw Hsp1].
  destruct (step doctor e) as [e1 [[]|x]]; simpl in *; [|done].
  destruct (IH e1 Hsp1) as [Hw2 Hsp2]. split; [by etrans | done].
Qed.

(** Once every program of a doctor environment has received three
    percepts the table has no key left for it: whatever [step()] and
    [run(steps)] then do, they change no object, neither the status of a
    room nor the input, and print nothing. *)
Theorem spent_doctor_is_idle (e : denv) (steps : Z) :
  spent (heap e) ->
  same_world (heap e) (heap (step doctor e).1)
  /\ same_world (heap e) (heap (run doctor steps e).1).
Proof.
  intros Hsp. split.
  - by destruct (step_quiet e Hsp).
  - by destruct (run_loop_quiet (Z.to_nat steps) e Hsp).
Qed.

(** *** Random draws: construction and default placement *)

(** The world after one more draw. *)
Definition advance (w : Doctor.hospital) : Doctor.hospital :=
  Doctor.Hospital (Doctor.status w) (Doctor.stdin w) (Doctor.rng w)
    (S (Doctor.rng_pos w)).

(** What [random.choice([x, y])] returns in the world [w]. *)
Definition drawn {A} (x y : A) (w : Doctor.hospital) : A :=
  if decide ((Doctor.rng w (Doctor.rng_pos w) `mod` 2)%nat = 0%nat) then x else y.

Lemma random_choice_two {A} (x y : A) (w : Doctor.hospital) :
  Doctor.random_choice [x; y] w = (advance w, Ok (drawn x y w)).
Proof.
  unfold Doctor.random_choice, drawn. simpl length.
  pose proof (Nat.mod_upper_bound (Doctor.rng w (Doctor.rng_pos w)) 2) as Hlt.
  destruct (Doctor.rng w (Doctor.rng_pos w) `mod` 2)%nat as [|[|k]];
    [done | done | lia].
Qed.

Lemma drawn_cases {A} (x y : A) w : drawn x y w = x \/ drawn x y w = y.
Proof. unfold drawn. case_decide; auto. Qed.

(** [TrivialDoctorEnvironment()] has no thing and no agent, so it is done;
    its status has exactly the two rooms, each ["healthy"] or
    ["unhealthy"]; it has made two draws, room A's first, and has touched
    nothing else of the store it was built over. *)
Theorem doctor_init (s : dstore) :
  let e := Doctor.TrivialDoctorEnvironment s in
  let sa := drawn "healthy" "unhealthy" (world s) in
  let sb := drawn "healthy" "unhealthy" (advance (world s)) in
  thing e = [] /\ agents e = [] /\ (is_done e).2 = Ok true
  /\ is_status sa /\ is_status sb
  /\ heap e =
       Store (objs s) (closures s)
         (Doctor.Hospital (<[Some Doctor.room_B := sb]> (<[Some Doctor.room_A := sa]> ∅))
            (Doctor.stdin (world s)) (Doctor.rng (world s))
            (S (S (Doctor.rng_pos (world s)))))
         (stdout s)
  /\ dom (Doctor.status (world (heap e)))
       = {[Some Doctor.room_A; Some Doctor.room_B]}.
Proof.
  unfold Doctor.TrivialDoctorEnvironment.
  rewrite !random_choice_two. simpl.
  split; [done|]. split; [done|]. split; [done|].
  split; [apply drawn_cases|]. split; [apply drawn_cases|].
  split; [done|]. rewrite !dom_insert_L. set_solver.
Qed.

Lemma default_location_eq (t : ref) (s : dstore) :
  Doctor.default_location t s =
    (set_world advance s,
     Ok (Some (drawn Doctor.room_A Doctor.room_B (world s)))).
Proof. unfold Doctor.default_location. by rewrite random_choice_two. Qed.

Lemma doctor_add_default (t : ref) (e : denv) :
  t ∉ thing e ->
  add_thing doctor (inl t) None e =
    match objs (heap e) !! t with
    | Some o =>
        (Environment
           (Store (<[t := registered_at
                            (Some (drawn Doctor.room_A Doctor.room_B (world (heap e)))) o]>
                     (objs (heap e)))
              (closures (heap e)) (advance (world (heap e))) (stdout (heap e)))
           (thing e ++ [t])
           (match cls o with KThing => agents e | KAgent => agents e ++ [t] end)
           (calls e),
         Ok tt)
    | None => (set_heap (set_world advance) e, Raise NoSuchObject)
    end.
Proof.
  intros Hnew. unfold add_thing. unfold bind at 1. simpl.
  unfold bind at 1. simpl. rewrite decide_False by done.
  unfold bind at 1. unfold lift_store. rewrite default_location_eq.
  unfold update, bind, deref, modify. simpl.
  destruct (objs (heap e) !! t) as [o|]; [|done]. simpl.
  rewrite lookup_insert_eq. simpl. unfold registered_at, set_heap, set_objs.
  destruct (cls o) eqn:Hcls; simpl; [done|].
  rewrite lookup_insert_eq. simpl. by rewrite insert_insert_eq.
Qed.

(** In the doctor environment [add_thing(thing)] without a location, for an
    existing instance that is not yet registered, returns; it makes exactly
    one draw and puts the instance in room A or room B accordingly; the
    status of the rooms, the input and the output are left as they are. *)
Theorem doctor_places_in_a_room (t : ref) (e : denv) o :
  t ∉ thing e -> objs (heap e) !! t = Some o ->
  let l := drawn Doctor.room_A Doctor.room_B (world (heap e)) in
  is_room l
  /\ add_thing doctor (inl t) None e =
       (Environment
          (Store (<[t := registered_at (Some l) o]> (objs (heap e)))
             (closures (heap e)) (advance (world (heap e))) (stdout (heap e)))
          (thing e ++ [t])
          (match cls o with KThing => agents e | KAgent => agents e ++ [t] end)
          (calls e),
        Ok tt).
Proof.
  intros Hnew Ho. split; [apply drawn_cases|].
  by rewrite doctor_add_default, Ho.
Qed.

(** *** Percepts never fail in a doctor's ward *)

(** Both rooms have a status, ["healthy"] or ["unhealthy"], and every
    instance of [L] is an object standing in a room. *)
Definition placed (L : list ref) (s : dstore) : Prop :=
  (forall l, is_room l ->
     exists st, Doctor.status (world s) !! Some l = Some st /\ is_status st)
  /\ (forall a : ref, a ∈ L ->
       exists o l, objs s !! a = Some o /\ location o = Some (Some l)
                   /\ is_room l).

Definition keeps_placed (L : list ref) (s s' : dstore) : Prop :=
  placed L s -> placed L s'.

#[local] Instance keeps_placed_preorder L : PreOrder (keeps_placed L).
Proof.
  split.
  - by intros s Hp.
  - intros s1 s2 s3 H1 H2 Hp. by apply H2, H1.
Qed.

Lemma placed_write (L : list ref) (agent : ref) (s : dstore) o o' :
  objs s !! agent = Some o ->
  (location o' = location o \/ exists l, location o' = Some (Some l) /\ is_room l) ->
  keeps_placed L s (set_objs <[agent := o']> s).
Proof.
  intros Ho Hloc [Hst Hobj]. split; [done|]. intros a Ha. simpl.
  destruct (decide (a = agent)) as [->|Hne].
  - rewrite lookup_insert_eq.
    destruct (Hobj agent Ha) as (o0 & l & Ho0 & Hl & Hroom).
    assert (o0 = o) as -> by congruence.
    destruct Hloc as [Hloc|(l' & Hloc & Hroom')].
    + exists o', l. by rewrite Hloc.
    + by exists o', l'.
  - rewrite lookup_insert_ne by done. by apply Hobj.
Qed.

Lemma execute_action_placed (L : list ref) (agent : ref)
    (action : option string) :
  respects (keeps_placed L) (Doctor.execute_action agent action).
Proof.
  apply (execute_action_respects agent (keeps_placed L)).
  - intros s o l Ho Hl. apply (placed_write L agent s o); [done|].
    right. by exists l.
  - intros s o p d Ho _. apply (placed_write L agent s o); [done|]. by left.
  - intros s line Hp. exact Hp.
  - intros s line rest _ Hp. exact Hp.
  - intros s l [Hst Hobj]. split; [|done]. intros l' Hl'. simpl.
    destruct (decide (l = Some l')) as [->|Hne].
    + rewrite lookup_insert_eq. exists "healthy". split; [done | by left].
    + rewrite lookup_insert_ne by done. by apply Hst.
Qed.

(** The environment is well placed: its agents stand in rooms that have a
    status. *)
Definition well_placed (e : denv) : Prop := placed (agents e) (heap e).

Lemma lifted_well_placed (e e' : denv) :
  lifted (keeps_placed (agents e)) e e' -> well_placed e -> well_placed e'.
Proof.
  intros (Hk & _ & Hags) Hp. unfold well_placed. rewrite Hags. by apply Hk.
Qed.

Lemma step_well_placed (e : denv) :
  well_placed e -> well_placed (step doctor e).1.
Proof.
  apply lifted_well_placed, (step_lifted doctor (keeps_placed (agents e))).
  - intros s cs Hp. exact Hp.
  - intros a act. apply execute_action_placed.
Qed.

Lemma run_well_placed (e : denv) (steps : Z) :
  well_placed e -> well_placed (run doctor steps e).1.
Proof.
  apply lifted_well_placed, (run_loop_lifted doctor (keeps_placed (agents e))).
  - intros s cs Hp. exact Hp.
  - intros a act. apply execute_action_placed.
Qed.

Lemma delete_well_placed (t : ref) (e : denv) :
  well_placed e -> well_placed (delete_thing t e).1.
Proof.
  intros [Hst Hobj]. rewrite delete_thing_eq. simpl.
  assert (Hsub : forall ags, list_remove t (agents e) = Some ags ->
                   forall a : ref, a ∈ ags -> a ∈ agents e).
  { intros ags Hr a Ha.
    destruct (list_remove_Some _ _ _ Hr) as (l1 & l2 & -> & -> & _).
    apply elem_of_app in Ha as [Ha|Ha]; apply elem_of_app; [by left|].
    right. by right. }
  destruct (list_remove t (agents e)) as [ags|] eqn:Hags,
           (list_remove t (thing e)) as [things|]; split; simpl;
    try done; intros a Ha; apply Hobj; by eapply Hsub.
Qed.

(** A location that [add_thing] may be given in a ward: none, or a room. *)
Definition room_or_default (loc : option Doctor.Loc) : Prop :=
  loc = None \/ exists l, loc = Some l /\ is_room l.

Lemma add_inl_well_placed (t : ref) (loc : option Doctor.Loc) (e : denv) :
  room_or_default loc ->
  well_placed e -> well_placed (add_thing doctor (inl t) loc e).1.
Proof.
  intros Hloc [Hst Hobj].
  destruct (decide (t ∈ thing e)) as [Hin|Hnew].
  { by rewrite add_thing_dup. }
  assert (Hreg : forall o l, objs (heap e) !! t = Some o -> is_room l ->
            forall a : ref,
              a ∈ match cls o with KThing => agents e | KAgent => agents e ++ [t] end ->
              exists o' l', <[t := registered_at (Some l) o]> (objs (heap e)) !! a = Some o'
                            /\ location o' = Some (Some l') /\ is_room l').
  { intros o l Ho Hl a Ha. destruct (decide (a = t)) as [->|Hne].
    - rewrite lookup_insert_eq. exists (registered_at (Some l) o), l.
      split; [done|]. split; [|done]. unfold registered_at. by destruct (cls o).
    - rewrite lookup_insert_ne by done. apply Hobj.
      destruct (cls o); [done|].
      apply elem_of_app in Ha as [Ha|Ha]; [done|].
      by apply list_elem_of_singleton in Ha. }
  destruct Hloc as [->|(l & -> & Hl)].
  - rewrite doctor_add_default by done.
    destruct (objs (heap e) !! t) as [o|] eqn:Ho; [|done].
    split; [done|]. simpl. apply Hreg; [done | apply drawn_cases].
  - destruct (objs (heap e) !! t) as [o|] eqn:Ho.
    + rewrite (add_thing_at doctor t l e o) by done. simpl.
      split; [done|]. simpl. by apply Hreg.
    + unfold add_thing. unfold bind at 1. simpl. unfold bind at 1. simpl.
      rewrite decide_False by done. unfold update, bind, deref. simpl.
      by rewrite Ho.
Qed.

Lemma add_well_placed (arg : ref + progval) (loc : option Doctor.Loc) (e : denv) :
  room_or_default loc ->
  well_placed e -> well_placed (add_thing doctor arg loc e).1.
Proof.
  intros Hloc Hp. destruct arg as [t|f]; [by apply add_inl_well_placed|].
  rewrite add_thing_inr. apply add_inl_well_placed; [done|].
  destruct Hp as [Hst Hobj]. split; [done|]. intros a Ha. simpl.
  destruct (Hobj a Ha) as (o & l & Ho & Hl & Hroom).
  rewrite lookup_insert_ne; [by exists o, l|].
  intros <-. pose proof (is_fresh (dom (objs (heap e)))) as Hf.
  apply Hf, elem_of_dom. by exists o.
Qed.

(** The environments a program gets by building a doctor environment and
    then calling its methods, placing things by default or in a room, with
    any lines typed at the prompt in between. *)
Inductive doctor_run : denv -> Prop :=
  | dr_init s : doctor_run (Doctor.TrivialDoctorEnvironment s)
  | dr_type e lines : doctor_run e -> doctor_run (set_heap (consume lines) e)
  | dr_add e arg loc :
      doctor_run e -> room_or_default loc ->
      doctor_run (add_thing doctor arg loc e).1
  | dr_delete e t : doctor_run e -> doctor_run (delete_thing t e).1
  | dr_step e : doctor_run e -> doctor_run (step doctor e).1
  | dr_run e steps : doctor_run e -> doctor_run (run doctor steps e).1.

Lemma doctor_run_well_placed (e : denv) : doctor_run e -> well_placed e.
Proof.
  induction 1 as [s|e lines _ IH|e arg loc _ IH Hloc|e t _ IH|e _ IH|e steps _ IH].
  - unfold Doctor.TrivialDoctorEnvironment. rewrite !random_choice_two.
    split; [|intros a Ha; by inversion Ha]. simpl.
    intros l [->| ->].
    + rewrite lookup_insert_ne by done. rewrite lookup_insert_eq.
      eexists. split; [done | apply drawn_cases].
    + rewrite lookup_insert_eq. eexists. split; [done | apply drawn_cases].
  - done.
  - by apply add_well_placed.
  - by apply delete_well_placed.
  - by apply step_well_placed.
  - by apply run_well_placed.
Qed.

(** In a doctor environment used as above, [percept] never raises: for
    every agent it returns a room with that room's status, ["healthy"] or
    ["unhealthy"], which is one of the four percepts that the doctor's table
    answers as a first percept. *)
Theorem doctor_percept_defined (e : denv) :
  doctor_run e ->
  forall a : ref, a ∈ agents e ->
    exists l st,
      is_room l /\ is_status st
      /\ Doctor.percept (objs (heap e)) (world (heap e)) a = Ok (Some l, st)
      /\ Doctor.doctor_table !! [(Some l, st)] = Some (reflex_action l st).
Proof.
  intros Hrun a Ha.
  destruct (doctor_run_well_placed e Hrun) as [Hst Hobj].
  destruct (Hobj a Ha) as (o & l & Ho & Hl & Hroom).
  destruct (Hst l Hroom) as (st & Hs & Hstatus).
  exists l, st. split; [done|]. split; [done|]. split.
  - unfold Doctor.percept. by rewrite Ho, Hl, Hs.
  - destruct Hroom as [->| ->], Hstatus as [->| ->]; vm_compute; reflexivity.
Qed.

End DoctorMore.

(** ** The further properties on concrete environments *)

Module MoreRuns.
Import Py Env DoctorFacts DoctorMore.
Local Open Scope py_scope.

Abbreviation base :=
  (@Environment_base (option Doctor.Loc * string) _ _ Doctor.Loc Doctor.hospital).

(** An empty store in a ward, and the same with two doctor agents made but
    not yet registered. *)
Definition empty_store : dstore := Store ∅ ∅ (ward []) [].
Definition two_doctors : dstore :=
  (Doctor.TableDrivenDoctorAgent (Doctor.TableDrivenDoctorAgent empty_store).1).1.

Definition doctor_object (c : Program.cref) (loc : option (option Doctor.Loc))
    : object Doctor.Loc :=
  Object KAgent (Some true) (Some 0) (Some (PClosure c)) loc.

Lemma base_step_not_implemented_witness :
  step base (add_thing base (inr PNone) None (init empty_store)).1
  = (logged (add_thing base (inr PNone) None (init empty_store)).1 false,
     Raise NotImplementedError).
Proof.
  apply base_step_not_implemented; [|vm_compute; reflexivity].
  intros a Ha. apply list_elem_of_singleton in Ha as ->.
  exists (Object KAgent (Some true) (Some 0) (Some PNone) (Some None)), true, PNone.
  vm_compute. repeat split.
Defined.

Lemma add_thing_wraps_witness :
  thing (add_thing doctor (inr PNone) (Some Doctor.room_B) (doctor_in_A [])).1
  = [0%nat; 1%nat].
Proof.
  destruct (add_thing_wraps doctor PNone Doctor.room_B (doctor_in_A []))
    as (_ & _ & Heq).
  - intros a Ha. apply list_elem_of_singleton in Ha as ->.
    exists (doctor_object 0%nat (Some (Some Doctor.room_A))).
    vm_compute. reflexivity.
  - rewrite Heq. vm_compute. reflexivity.
Defined.

Lemma base_add_thing_witness :
  (location <$>
     objs (heap (add_thing base (inl 0%nat) None
                   (init (Store {[ 0%nat := new_Thing ]} ∅ (ward []) []))).1)
       !! 0%nat)
  = Some (Some None).
Proof.
  rewrite (base_add_thing 0%nat None
             (init (Store {[ 0%nat := new_Thing ]} ∅ (ward []) [])) new_Thing).
  - vm_compute. reflexivity.
  - intros Hin. inversion Hin.
  - vm_compute. reflexivity.
Defined.

Lemma add_then_delete_witness :
  thing (delete_thing 1%nat
           (add_thing doctor (inl 1%nat) (Some Doctor.room_B)
              (add_thing doctor (inl 0%nat) (Some Doctor.room_A)
                 (init two_doctors)).1).1).1
  = [0%nat].
Proof.
  destruct (add_then_delete doctor 1%nat (Some Doctor.room_B)
              (add_thing doctor (inl 0%nat) (Some Doctor.room_A)
                 (init two_doctors)).1) as (Hthing & _ & _).
  - apply reach_add, reach_init.
  - intros Hin. apply list_elem_of_singleton in Hin. discriminate Hin.
  - vm_compute. reflexivity.
  - etrans; [exact Hthing|]. vm_compute. reflexivity.
Defined.

Lemma run_in_instalments_witness :
  run doctor (1 + 1) (doctor_in_A [Some (Doctor.Real 100)])
  = (run doctor 1 ;; run doctor 1)%py (doctor_in_A [Some (Doctor.Real 100)]).
Proof. apply run_in_instalments; lia. Defined.

Lemma move_effect_witness :
  (performance <$>
     objs (Doctor.execute_action 0%nat (Some "Right") (heap (doctor_in_A []))).1
       !! 0%nat)
  = Some (Some (-1)).
Proof.
  destruct (move_effect 0%nat (heap (doctor_in_A []))
              (doctor_object 0%nat (Some (Some Doctor.room_A))))
    as [Hmove _]; [vm_compute; reflexivity|].
  destruct (Hmove 0 eq_refl) as [Hright _].
  rewrite Hright. vm_compute. reflexivity.
Defined.

Lemma doctor_runs_to_the_bound_witness :
  exists evs,
    calls (run doctor 2 (doctor_in_A [Some (Doctor.Real 100)])).1
      = calls (doctor_in_A [Some (Doctor.Real 100)]) ++ evs
    /\ Z.of_nat (length (step_flags evs)) = 2
    /\ (is_done (run doctor 2 (doctor_in_A [Some (Doctor.Real 100)])).1).2
       = Ok false.
Proof.
  apply (doctor_runs_to_the_bound (doctor_in_A [Some (Doctor.Real 100)]) 2);
    vm_compute; reflexivity.
Defined.

(** A doctor that has already met three percepts. *)
Definition spent_doctor : denv :=
  Environment
    (Store {[ 0%nat := doctor_object 0%nat (Some (Some Doctor.room_B)) ]}
       {[ 0%nat := Program.Closure Doctor.doctor_table
                     [(Some Doctor.room_A, "unhealthy");
                      (Some Doctor.room_A, "healthy");
                      (Some Doctor.room_B, "unhealthy")] ]}
       (ward [Some (Doctor.Real 100)]) [])
    [0%nat] [0%nat] [].

Lemma spent_doctor_is_idle_witness :
  same_world (heap spent_doctor) (heap (step doctor spent_doctor).1)
  /\ same_world (heap spent_doctor) (heap (run doctor 5 spent_doctor).1).
Proof.
  apply spent_doctor_is_idle.
  intros c cl Hc. unfold spent_doctor in Hc. simpl in Hc.
  apply lookup_singleton_Some in Hc as [<- <-].
  split; [reflexivity | simpl; lia].
Defined.

Lemma doctor_places_in_a_room_witness :
  (add_thing doctor (inl 0%nat) None (init two_doctors)).2 = Ok tt.
Proof.
  destruct (doctor_places_in_a_room 0%nat (init two_doctors)
              (doctor_object 0%nat None)) as [_ Heq].
  - intros Hin. inversion Hin.
  - vm_compute. reflexivity.
  - exact (f_equal snd Heq).
Defined.

Lemma doctor_percept_defined_witness :
  exists l st,
    is_room l /\ is_status st
    /\ Doctor.percept
         (objs (heap (add_thing doctor (inl 0%nat) None
                        (Doctor.TrivialDoctorEnvironment two_doctors)).1))
         (world (heap (add_thing doctor (inl 0%nat) None
                         (Doctor.TrivialDoctorEnvironment two_doctors)).1))
         0%nat
       = Ok (Some l, st)
    /\ Doctor.doctor_table !! [(Some l, st)] = Some (reflex_action l st).
Proof.
  apply doctor_percept_defined.
  - apply dr_add; [apply dr_init | by left].
  - vm_compute. constructor.
Defined.

End MoreRuns.

(** ** Two program instances *)

Section TwoInstances.
Import Program.
Context {P : Type} `{Countable P} {A : Type}.
Implicit Types (cs : gmap cref (closure P A)).

(** A call of the instance [f] followed by a call of the instance [g]: the
    two actions returned and the store afterwards. *)
Definition call_both (f : cref) (p : P) (g : cref) (q : P)
    (cs : gmap cref (closure P A))
    : option (option A * option A * gmap cref (closure P A)) :=
  match call f p cs with
  | Some (_, a1, cs1) =>
      match call g q cs1 with
      | Some (_, a2, cs2) => Some (a1, a2, cs2)
      | None => None
      end
  | None => None
  end.

(** Calls of two different instances can be made in either order: each
    instance returns the same action and the store ends the same. *)
Theorem calls_commute (f g : cref) (p q : P) cs :
  f <> g ->
  call_both f p g q cs =
    match call_both g q f p cs with
    | Some (a2, a1, cs') => Some (a1, a2, cs')
    | None => None
    end.
Proof.
  intros Hne. unfold call_both, call, program, lookup_key.
  destruct (cs !! f) as [cf|] eqn:Hf, (cs !! g) as [cg|] eqn:Hg; simpl.
  - rewrite lookup_insert_ne by done. rewrite Hg.
    rewrite lookup_insert_ne by done. rewrite Hf. simpl.
    by rewrite insert_insert_ne.
  - rewrite lookup_insert_ne by done. by rewrite Hg.
  - rewrite lookup_insert_ne by done. by rewrite Hf.
  - done.
Qed.

End TwoInstances.

(** ** The score of one tick *)

Module DoctorScore.
Import Py Env DoctorMore.
Local Open Scope py_scope.

Definition is_move (action : option string) : Prop :=
  action = Some "Right" \/ action = Some "Left".

(** What one call of [execute_action] makes of a performance [p]: a move
    takes 1 off, a treatment adds 10 or nothing, any other action nothing. *)
Definition score_step (action : option string) (p p' : Z) : Prop :=
  if decide (is_move action) then p' = p - 1
  else if decide (action = Some "treat") then p' = p \/ p' = p + 10
  else p' = p.

Lemma execute_action_score (agent : ref) (action : option string) (s : dstore) o p :
  objs s !! agent = Some o -> performance o = Some p ->
  exists o' p',
    objs (Doctor.execute_action agent action s).1 !! agent = Some o'
    /\ performance o' = Some p' /\ score_step action p p'.
Proof.
  intros Ho Hp. unfold Doctor.execute_action, score_step, is_move. fold prompt.
  destruct (decide (action = Some "Right")) as [->|HR];
    [|destruct (decide (action = Some "Left")) as [->|HL];
      [|destruct (decide (action = Some "treat")) as [->|HT]]].
  - unfold bind. rewrite assign_location_eq, Ho, add_performance_eq. simpl.
    rewrite lookup_insert_eq. simpl. rewrite Hp. simpl.
    rewrite lookup_insert_eq. eexists _, _. split; [done|]. split; [done|].
    lia.
  - unfold bind. rewrite assign_location_eq, Ho, add_performance_eq. simpl.
    rewrite lookup_insert_eq. simpl. rewrite Hp. simpl.
    rewrite lookup_insert_eq. eexists _, _. split; [done|]. split; [done|].
    lia.
  - case_decide as Hm; [by destruct Hm|].
    unfold bind at 1. rewrite float_input_eq.
    destruct (Doctor.stdin (world s)) as [|[tem|] rest]; simpl;
      [exists o, p; by (split; [|split; [|left]])| |
       exists o, p; by (split; [|split; [|left]])].
    destruct (Doctor.float_ge tem Doctor.threshold).
    + unfold bind at 1 2. simpl. rewrite add_performance_eq. simpl.
      rewrite Ho, Hp. simpl. unfold bind, Doctor.load. simpl.
      rewrite lookup_insert_eq. simpl.
      exists (scored (p + 10) o), (p + 10).
      destruct (location o) as [l|]; simpl; rewrite lookup_insert_eq;
        (split; [done|]; split; [done|]; by right).
    + unfold bind, Doctor.load. simpl. rewrite Ho. simpl.
      exists o, p.
      destruct (location o) as [l|]; simpl;
        (split; [done|]; split; [done|]; by left).
  - exists o, p. split; [done|]. split; [done|].
    case_decide as Hm; [by destruct Hm | done].
Qed.

Lemma score_step_bounds action p p' :
  score_step action p p' -> p - 1 <= p' <= p + 10.
Proof. unfold score_step. repeat case_decide; intros; lia. Qed.

(** Over a list of calls that names no agent twice, the performance of an
    object changes by what its one call makes of it, or not at all. *)
Lemma apply_actions_score (xs : list (ref * option string)) : forall e : denv,
  NoDup xs.*1 ->
  forall (a : ref) o p,
    objs (heap e) !! a = Some o -> performance o = Some p ->
    exists o' p',
      objs (heap (apply_actions doctor xs e).1) !! a = Some o'
      /\ performance o' = Some p' /\ p - 1 <= p' <= p + 10
      /\ (a ∉ xs.*1 -> p' = p)
      /\ (forall act, (a, act) ∈ xs -> (apply_actions doctor xs e).2 = Ok tt ->
            score_step act p p').
Proof.
  induction xs as [|[a0 act0] xs IH]; intros e Hnd a o p Ho Hp.
  { exists o, p. simpl. split; [done|]. split; [done|]. split; [lia|].
    split; [done|]. intros act Hin. by inversion Hin. }
  rewrite fmap_cons in Hnd. apply NoDup_cons in Hnd as [Hnew Hnd].
  rewrite apply_actions_cons. simpl.
  assert (Hfirst : exists o1 p1,
             objs (Doctor.execute_action a0 act0 (heap e)).1 !! a = Some o1
             /\ performance o1 = Some p1
             /\ (a <> a0 -> p1 = p)
             /\ (a = a0 -> score_step act0 p p1)).
  { destruct (decide (a = a0)) as [->|Hne].
    - destruct (execute_action_score a0 act0 (heap e) o p Ho Hp)
        as (o1 & p1 & Ho1 & Hp1 & Hs).
      exists o1, p1. repeat split; try done.
    - destruct (execute_action_acts_for a0 act0 (heap e))
        as (_ & _ & _ & Hother & _).
      exists o, p. rewrite Hother by done. repeat split; try done. }
  destruct Hfirst as (o1 & p1 & Ho1 & Hp1 & Hsame & Hstep).
  destruct (Doctor.execute_action a0 act0 (heap e)) as [s1 [[]|x]]; simpl in *.
  - match goal with |- context [apply_actions doctor xs ?e1] =>
      destruct (IH e1 Hnd a o1 p1 Ho1 Hp1) as (o' & p' & Ho' & Hp' & Hb & Hout & Hin)
    end.
    exists o', p'. split; [done|]. split; [done|].
    destruct (decide (a = a0)) as [->|Hne].
    + rewrite (Hout Hnew) in *. pose proof (score_step_bounds _ _ _ (Hstep eq_refl)).
      split; [lia|]. split.
      * intros Hn. exfalso. apply Hn. by left.
      * intros act Hact Hok.
        apply elem_of_cons in Hact as [[= <-]|Hact]; [by apply Hstep|].
        exfalso. apply Hnew. apply list_elem_of_fmap. by exists (a0, act).
    + rewrite (Hsame Hne) in *. split; [done|]. split.
      * intros Hn. apply Hout. intros Hin'. apply Hn. by right.
      * intros act Hact Hok.
        apply elem_of_cons in Hact as [[= ? ?]|Hact]; [done|].
        by apply Hin.
  - exists o1, p1. split; [done|]. split; [done|].
    destruct (decide (a = a0)) as [->|Hne].
    + pose proof (score_step_bounds _ _ _ (Hstep eq_refl)).
      split; [lia|]. split; [|done].
      intros Hn. exfalso. apply Hn. by left.
    + rewrite (Hsame Hne). split; [lia|]. split; [done|]. done.
Qed.

(** One [step()] of a doctor environment that lists no agent twice changes
    the performance of every object by at most one action's worth, between
    1 down and 10 up, however the step ends, and not at all for an object
    that is not one of the agents.  When the step returns, an agent's
    performance has gone down by exactly 1 if the action executed for it was
    a move, up by 10 or by nothing if it was a treatment, and is unchanged
    for any other action. *)
Theorem doctor_step_score (e : denv) (a : ref) o p :
  NoDup (agents e) ->
  objs (heap e) !! a = Some o -> performance o = Some p ->
  exists o' p',
    objs (heap (step doctor e).1) !! a = Some o'
    /\ performance o' = Some p' /\ p - 1 <= p' <= p + 10
    /\ (a ∉ agents e -> p' = p)
    /\ ((step doctor e).2 = Ok tt ->
        forall evs act,
          calls (step doctor e).1 = calls e ++ evs ->
          (a, act) ∈ executed evs -> score_step act p p').
Proof.
  intros Hnd Ho Hp. rewrite step_eq.
  destruct (is_done e).2 as [[|]|x].
  - exists o, p. split; [done|]. split; [done|]. split; [lia|].
    split; [done|].
    simpl. intros _ evs act Hc Hin. apply app_inv_head in Hc as <-.
    by inversion Hin.
  - destruct (decide_actions_trace doctor (agents e) (logged e false))
      as (evs1 & Hos & _ & Hc1 & Hall & Hok).
    destruct (decide_actions doctor (agents e) (logged e false))
      as [e2 [acts|x]]; simpl in *;
      [|exists o, p; rewrite Hos; split; [done|]; split; [done|];
        split; [lia|]; by split].
    assert (Hfst : (zip (agents e) acts).*1 = agents e).
    { apply fst_zip. by rewrite (phase1_length _ _ _ _ _ _ (Hok acts eq_refl)). }
    rewrite <- Hos in Ho.
    destruct (apply_actions_score (zip (agents e) acts) e2) with a o p
      as (o' & p' & Ho' & Hp' & Hb & Hout & Hin); [by rewrite Hfst|done..|].
    destruct (apply_actions_trace doctor (zip (agents e) acts) e2)
      as (exe & _ & Hc2 & Hfull).
    exists o', p'. rewrite Hfst in Hout.
    split; [done|]. split; [done|]. split; [done|]. split; [done|].
    intros Hr evs act Hc Hact. apply Hin; [|done].
    rewrite Hc2, Hc1, (Hfull Hr), <- !app_assoc in Hc.
    apply app_inv_head in Hc as <-.
    erewrite executed_step_trace in Hact;
      [done | right; by exists false | exact Hall].
  - exists o, p. split; [done|]. split; [done|]. split; [lia|]. by split.
Qed.

End DoctorScore.

Module ScoreRuns.
Import Py Env DoctorFacts DoctorMore DoctorScore.

(** Two instances over a one-entry table of number percepts. *)
Definition two_instances : gmap Program.cref (Program.closure nat string) :=
  let tbl : gmap (list nat) string := {[ [1%nat] := "go" ]} in
  (Program.TableDrivenAgentProgram tbl
     (Program.TableDrivenAgentProgram tbl ∅).2).2.

Lemma calls_commute_witness :
  call_both 0%nat 1%nat 1%nat 2%nat two_instances =
    match call_both 1%nat 2%nat 0%nat 1%nat two_instances with
    | Some (a2, a1, cs') => Some (a1, a2, cs')
    | None => None
    end.
Proof. apply calls_commute. discriminate. Defined.

Lemma doctor_step_score_witness :
  exists o' p',
    objs (heap (step doctor (doctor_in_A [Some (Doctor.Real 100)])).1) !! 0%nat
      = Some o'
    /\ performance o' = Some p' /\ 0 - 1 <= p' <= 0 + 10.
Proof.
  destruct (doctor_step_score (doctor_in_A [Some (Doctor.Real 100)]) 0%nat
              (Object KAgent (Some true) (Some 0) (Some (PClosure 0%nat))
                 (Some (Some Doctor.room_A))) 0)
    as (o' & p' & Ho' & Hp' & Hb & _).
  - apply NoDup_singleton.
  - vm_compute. reflexivity.
  - reflexivity.
  - by exists o', p'.
Defined.

End ScoreRuns.
